(** * The repository catalog and the commit history cache

    A shallow embedding of two stores of the desktop Git client:

    - [GitStore] ([app/src/lib/dispatcher/git-store.ts]): the in-memory
      commit history cache with its request de-duplication;
    - [RepositoriesStore] ([src/shared-process/repositories-store.ts]):
      the catalog of local repositories and their linked GitHub
      repositories and owners.

    Asynchronous methods are embedded in a resumption monad: a method runs
    on the store until it returns, throws, or awaits the Git collaborator;
    an awaiting method is a continuation that the event loop resumes with
    the settled promise. *)

From stdpp Require Import gmap strings list fin_maps sorting.
From Stdlib Require Import ZArith Lia.

Open Scope string_scope.
Open Scope Z_scope.

(** ** JavaScript array helpers *)

Module JS.

Section Arrays.
Context {A : Type}.

(** [Array.prototype.findIndex]: the index of the first element that
    satisfies the predicate, [-1] when there is none. *)
Fixpoint findIndexFrom (i : Z) (p : A → bool) (l : list A) : Z :=
  match l with
  | [] => -1
  | x :: l' => if p x then i else findIndexFrom (i + 1) p l'
  end.

Definition findIndex (p : A → bool) (l : list A) : Z :=
  findIndexFrom 0 p l.

(** A relative index of [slice], resolved against the length: negative
    indices count from the end, everything is clamped to the array. *)
Definition clampIndex (len i : Z) : Z :=
  if i <? 0 then Z.max (len + i) 0 else Z.min i len.

(** [Array.prototype.slice(start, end)]. *)
Definition slice (l : list A) (start stop : Z) : list A :=
  let len := Z.of_nat (length l) in
  let from := clampIndex len start in
  let to := clampIndex len stop in
  take (Z.to_nat (to - from)) (drop (Z.to_nat from) l).
End Arrays.

End JS.

(** ** The commit history cache *)

Module Git.

(** Modelled from the spec: [Commit] is declared in
    [../local-git-operations], which is not among the sources. A commit
    has a SHA, a summary, a body, an author identity (name, email,
    timestamp) and the ordered list of its parents' SHAs; the store reads
    [sha], [summary], [body] and [parentSHAs]. *)
Record Commit := mkCommit {
  sha : string;
  summary : string;
  body : string;
  authorName : string;
  authorEmail : string;
  authorDate : Z;
  parentSHAs : list string;
}.

(** A JavaScript [Error], reduced to its message. *)
Record Error := mkError { message : string }.

(** The notifications of the store's emitter. *)
Inductive Event :=
| DidUpdate
| DidLoadNewCommits (commits : list Commit)
| DidError (error : Error).

(** The fields of a [GitStore] that history loading reads and writes.
    [emitted] is the log of what the emitter has fired, oldest first. *)
Record GitStore := mkGitStore {
  commits : gmap string Commit;
  _history : list string;
  requestsInFight : gset string;
  emitted : list Event;
}.

Definition CommitBatchSize : Z := 100.
Definition LoadingHistoryRequestKey : string := "history".

(** Modelled from the spec: [LocalGitOperations] is not among the
    sources. Given a repository, a revision range and a batch size,
    [getCommits] returns the commits newest first, or fails. This is one
    invocation of [LocalGitOperations.getCommits(repository, revisionRange,
    limit)]; the repository is fixed per store. *)
Record GitCall := mkGitCall { revisionRange : string; limit : Z }.

(** How the promise of a Git invocation settles. *)
Inductive GitResult :=
| Resolved (cs : list Commit)
| Rejected (e : Error).

(** *** Asynchronous computations

    Running a computation on a store gives the new store and either a
    value, a thrown error, or a suspension on a Git invocation together
    with the continuation to run when its promise settles. *)
#[local] Unset Elimination Schemes.
Inductive Step (A : Type) : Type :=
| Ret (a : A)
| Throw (e : Error)
| Await (c : GitCall) (k : GitResult → GitStore → GitStore * Step A).
#[local] Set Elimination Schemes.
Arguments Ret {A} a.
Arguments Throw {A} e.
Arguments Await {A} c k.

Definition Async (A : Type) : Type := GitStore → GitStore * Step A.

Definition ret {A} (a : A) : Async A := λ s, (s, Ret a).
Definition throw {A} (e : Error) : Async A := λ s, (s, Throw e).

Fixpoint bindStep {A B} (st : Step A) (f : A → Async B) (s : GitStore)
  : GitStore * Step B :=
  match st with
  | Ret a => f a s
  | Throw e => (s, Throw e)
  | Await c k =>
      (s, Await c (λ r s', let '(s'', st') := k r s' in bindStep st' f s''))
  end.

Definition bind {A B} (m : Async A) (f : A → Async B) : Async B :=
  λ s, let '(s', st) := m s in bindStep st f s'.

(** [try { m } catch (e) { h e }] *)
Fixpoint catchStep {A} (st : Step A) (h : Error → Async A) (s : GitStore)
  : GitStore * Step A :=
  match st with
  | Ret a => (s, Ret a)
  | Throw e => h e s
  | Await c k =>
      (s, Await c (λ r s', let '(s'', st') := k r s' in catchStep st' h s''))
  end.

Definition tryCatch {A} (m : Async A) (h : Error → Async A) : Async A :=
  λ s, let '(s', st) := m s in catchStep st h s'.

Definition gets {A} (f : GitStore → A) : Async A := λ s, (s, Ret (f s)).
Definition modify (f : GitStore → GitStore) : Async unit := λ s, (f s, Ret tt).

#[export] Instance Async_ret : MRet Async := @ret.
#[export] Instance Async_bind : MBind Async := λ A B f m, bind m f.

(** [await LocalGitOperations.getCommits(...)]: the invocation happens
    at once, the method is suspended until the promise settles, and a
    rejection is thrown at the [await]. *)
Definition getCommits (revisionRange : string) (limit : Z)
  : Async (list Commit) :=
  λ s, (s, Await (mkGitCall revisionRange limit)
             (λ r s', match r with
                      | Resolved cs => (s', Ret cs)
                      | Rejected e => (s', Throw e)
                      end)).

(** *** Field updates *)

Definition set_commits (f : gmap string Commit → gmap string Commit)
    (s : GitStore) : GitStore :=
  mkGitStore (f (commits s)) (_history s) (requestsInFight s) (emitted s).
Definition set_history (h : list string) (s : GitStore) : GitStore :=
  mkGitStore (commits s) h (requestsInFight s) (emitted s).
Definition set_requestsInFight (f : gset string → gset string)
    (s : GitStore) : GitStore :=
  mkGitStore (commits s) (_history s) (f (requestsInFight s)) (emitted s).
Definition emit (ev : Event) (s : GitStore) : GitStore :=
  mkGitStore (commits s) (_history s) (requestsInFight s) (emitted s ++ [ev]).

(** *** The methods of [GitStore] *)

Definition emitUpdate : Async unit := modify (emit DidUpdate).

Definition emitNewCommitsLoaded (cs : list Commit) : Async unit :=
  modify (emit (DidLoadNewCommits cs)).

Definition emitError (error : Error) : Async unit :=
  modify (emit (DidError error)).

(** [for (const commit of commits) this.commits.set(commit.sha, commit)] *)
Definition storeCommits (cs : list Commit) : Async unit :=
  modify (set_commits (λ m, foldl (λ m c, <[sha c := c]> m) m cs)).

(** Catch what the operation throws, emit it, and return [undefined]. *)
Definition performFailableOperation {T} (fn : Async T) : Async (option T) :=
  tryCatch (result ← fn; mret (Some result))
           (λ e, emitError e;; mret None).

Definition requestsInFight_has (key : string) : Async bool :=
  gets (λ s, bool_decide (key ∈ requestsInFight s)).
Definition requestsInFight_add (key : string) : Async unit :=
  modify (set_requestsInFight (λ rs, rs ∪ {[key]})).
Definition requestsInFight_delete (key : string) : Async unit :=
  modify (set_requestsInFight (λ rs, rs ∖ {[key]})).

(** The reconciliation in [loadHistory] of the fetched batch with the
    history already loaded ([if (existingHistory.length > 0) { ... }]):
    the commits to keep and the old history to keep. *)
Definition reconcile (cs : list Commit) (existingHistory : list string)
  : list Commit * list string :=
  match existingHistory with
  | [] => (cs, existingHistory)
  | mostRecent :: _ =>
      let index := JS.findIndex (λ c, String.eqb (sha c) mostRecent) cs in
      if index >? -1
      then (JS.slice cs 0 index, existingHistory)
      else (cs, [])
  end.

(** Load history from HEAD. *)
Definition loadHistory : Async unit :=
  inFlight ← requestsInFight_has LoadingHistoryRequestKey;
  if inFlight : bool then mret tt else
  requestsInFight_add LoadingHistoryRequestKey;;
  fetched ← performFailableOperation (getCommits "HEAD" CommitBatchSize);
  match fetched with
  | None => mret tt
  | Some fetched =>
      existingHistory ← gets _history;
      let '(cs, existingHistory) := reconcile fetched existingHistory in
      modify (set_history ((sha <$> cs) ++ existingHistory));;
      storeCommits cs;;
      requestsInFight_delete LoadingHistoryRequestKey;;
      emitNewCommitsLoaded cs;;
      emitUpdate
  end.

(** Load the next batch of history, starting from the last loaded
    commit. *)
Definition loadNextHistoryBatch : Async unit :=
  inFlight ← requestsInFight_has LoadingHistoryRequestKey;
  if inFlight : bool then mret tt else
  history ← gets _history;
  match last history with
  | None => mret tt
  | Some lastSHA =>
      let requestKey := "history/" +:+ lastSHA in
      inFlight ← requestsInFight_has requestKey;
      if inFlight : bool then mret tt else
      requestsInFight_add requestKey;;
      fetched ← performFailableOperation
                  (getCommits (lastSHA +:+ "^") CommitBatchSize);
      match fetched with
      | None => mret tt
      | Some cs =>
          history ← gets _history;
          modify (set_history (history ++ (sha <$> cs)));;
          storeCommits cs;;
          requestsInFight_delete requestKey;;
          emitNewCommitsLoaded cs;;
          emitUpdate
      end
  end.

(** *** Running a method to completion

    [run git m s] calls [m] on [s] and settles every Git invocation it
    awaits with the oracle [git], with nothing else scheduled in between.
    The outcome records the final store, how the method's promise
    completed, and the Git invocations made, oldest first. *)
Record Outcome (A : Type) := mkOutcome {
  final : GitStore;
  completion : Error + A;
  invoked : list GitCall;
}.
Arguments mkOutcome {A}.
Arguments final {A}.
Arguments completion {A}.
Arguments invoked {A}.

Fixpoint runStep {A} (git : GitCall → GitResult) (st : Step A)
    (s : GitStore) (log : list GitCall) : Outcome A :=
  match st with
  | Ret a => mkOutcome s (inr a) log
  | Throw e => mkOutcome s (inl e) log
  | Await c k => let '(s', st') := k (git c) s in runStep git st' s' (log ++ [c])
  end.

Definition run {A} (git : GitCall → GitResult) (m : Async A) (s : GitStore)
  : Outcome A :=
  let '(s', st) := m s in runStep git st s' [].

(** *** The event loop

    Methods called without awaiting one another interleave at their
    [await]s. The system is the store, the suspended methods with the
    invocation each awaits, and the log of Git invocations. *)
Record Task := mkTask {
  awaiting : GitCall;
  resume : GitResult → Async unit;
}.

Record System := mkSystem {
  store : GitStore;
  pending : list Task;
  invocations : list GitCall;
}.

(** Take in what a method did until it returned or suspended. A method
    that suspends has invoked Git and joins the pending tasks. *)
Definition schedule (sys : System) (r : GitStore * Step unit) : System :=
  match r.2 with
  | Await c k =>
      mkSystem r.1 (pending sys ++ [mkTask c k]) (invocations sys ++ [c])
  | _ => mkSystem r.1 (pending sys) (invocations sys)
  end.

(** Call a method, without awaiting it. *)
Definition call (m : Async unit) (sys : System) : System :=
  schedule sys (m (store sys)).

(** The promise awaited by the [n]th pending task settles with [r]. *)
Definition settle (n : nat) (r : GitResult) (sys : System) : System :=
  match pending sys !! n with
  | None => sys
  | Some t =>
      schedule (mkSystem (store sys) (delete n (pending sys)) (invocations sys))
               (resume t r (store sys))
  end.

(** What the system can do next. Besides the two history loaders, the
    other methods of the store ([loadBranches], [loadLocalCommits],
    [undoCommit], ...) invoke Git, write [commits] and fire the emitter;
    they neither read nor write [_history] and [requestsInFight]. *)
Inductive step : System → System → Prop :=
| step_loadHistory sys :
    step sys (call loadHistory sys)
| step_loadNextHistoryBatch sys :
    step sys (call loadNextHistoryBatch sys)
| step_settle sys n r :
    step sys (settle n r sys)
| step_other sys cs evs calls :
    step sys (mkSystem
                (mkGitStore cs (_history (store sys))
                   (requestsInFight (store sys))
                   (emitted (store sys) ++ evs))
                (pending sys) (invocations sys ++ calls)).

Definition steps : System → System → Prop := rtc step.

(** A store on which nothing has been called yet. *)
Definition idle (s : GitStore) : System := mkSystem s [] [].

(** *** What the loaders do, as store transformers *)

Definition HEADCall : GitCall := mkGitCall "HEAD" CommitBatchSize.
Definition nextCall (lastSHA : string) : GitCall :=
  mkGitCall (lastSHA +:+ "^") CommitBatchSize.

(** The store after a suspended [loadHistory] is resumed. *)
Definition loadHistory_settled (r : GitResult) (s : GitStore) : GitStore :=
  match r with
  | Rejected e => emit (DidError e) s
  | Resolved fetched =>
      let '(cs, existingHistory) := reconcile fetched (_history s) in
      emit DidUpdate
        (emit (DidLoadNewCommits cs)
           (set_requestsInFight (λ rs, rs ∖ {[LoadingHistoryRequestKey]})
              (set_commits (λ m, foldl (λ m c, <[sha c := c]> m) m cs)
                 (set_history ((sha <$> cs) ++ existingHistory) s))))
  end.

(** The store after a suspended [loadNextHistoryBatch] is resumed. *)
Definition loadNextHistoryBatch_settled (requestKey : string)
    (r : GitResult) (s : GitStore) : GitStore :=
  match r with
  | Rejected e => emit (DidError e) s
  | Resolved cs =>
      emit DidUpdate
        (emit (DidLoadNewCommits cs)
           (set_requestsInFight (λ rs, rs ∖ {[requestKey]})
              (set_commits (λ m, foldl (λ m c, <[sha c := c]> m) m cs)
                 (set_history (_history s ++ (sha <$> cs)) s))))
  end.

(** The guards of [loadNextHistoryBatch]: when they let the call through,
    they give the last SHA of the history. *)
Definition nextBatchGuard s : option string :=
  if bool_decide (LoadingHistoryRequestKey ∈ requestsInFight s) then None
  else match last (_history s) with
       | None => None
       | Some lastSHA =>
           if bool_decide ("history/" +:+ lastSHA ∈ requestsInFight s)
           then None else Some lastSHA
       end.

(** *** Suspended loaders and the request keys they hold *)

(** A pending task holds the request key of the call it suspends: it
    awaits the call's Git invocation, and resuming it finishes the call. *)
Inductive holds : Task → string → Prop :=
| holds_history t :
    awaiting t = HEADCall →
    (∀ r s, resume t r s = (loadHistory_settled r s, Ret tt)) →
    holds t LoadingHistoryRequestKey
| holds_batch t lastSHA :
    awaiting t = nextCall lastSHA →
    (∀ r s, resume t r s
            = (loadNextHistoryBatch_settled ("history/" +:+ lastSHA) r s, Ret tt)) →
    holds t ("history/" +:+ lastSHA).

(** Every pending task holds a key of its own, and that key is in
    flight. *)
Definition exclusive (sys : System) : Prop :=
  ∃ keys, Forall2 holds (pending sys) keys
          ∧ NoDup keys
          ∧ ∀ key, key ∈ keys → key ∈ requestsInFight (store sys).

(** A key is stuck when it is in flight and no pending task holds it. *)
Definition stuck (key : string) (sys : System) : Prop :=
  key ∈ requestsInFight (store sys)
  ∧ ∃ keys, Forall2 holds (pending sys) keys ∧ key ∉ keys.

End Git.

(** ** The repository catalog *)

Module Catalog.

(** *** The models *)

(** Modelled from the spec: the model classes [Owner], [GitHubRepository]
    and [Repository] ([models/owner], [models/github-repository],
    [models/repository]) are not among the sources; the store uses their
    constructors and getters only. A remote owner is a login and an API
    endpoint. *)
Record Owner := mkOwner {
  getLogin : string;
  getEndpoint : string;
}.

(** Modelled from the spec: a remote repository has a name, an owner, a
    visibility flag, a fork flag and a canonical web URL. *)
Record GitHubRepository := mkGitHubRepository {
  getName : string;
  getOwner : Owner;
  getPrivate : bool;
  getFork : bool;
  getHTMLURL : string;
}.

(** Modelled from the spec: a local repository has a path, an optional
    remote repository and an identifier that is absent before insertion. *)
Record Repository := mkRepository {
  getPath : string;
  getGitHubRepository : option GitHubRepository;
  getID : option Z;
}.

(** [repo.withID(id)]: a copy that carries the identifier. *)
Definition withID (repo : Repository) (id : Z) : Repository :=
  mkRepository (getPath repo) (getGitHubRepository repo) (Some id).

(** JavaScript truthiness of a [number | null]: [null] and [0] are
    falsy. [truthy n] is the number when [n] is truthy. *)
Definition truthy (n : option Z) : option Z :=
  match n with
  | Some k => if k =? 0 then None else Some k
  | None => None
  end.

(** *** The datastore

    Modelled from the spec: the [Database] class ([./database]) is not
    among the sources. It is an embedded transactional datastore with
    three record collections, linked by integer identifiers that the
    datastore assigns on insert, supporting get-by-id, case-insensitive
    lookup on an indexed field, [add], [update] and [put]. A collection
    maps primary keys to rows; a row's [id] is its key. *)
Record Table (A : Type) := mkTable {
  rows : gmap Z A;
  nextKey : Z;
}.
Arguments mkTable {A}.
Arguments rows {A}.
Arguments nextKey {A}.

Section TableOps.
Context {A : Type}.

Definition emptyTable : Table A := mkTable ∅ 1.

(** [get]: the row stored under a key, with its [id]. *)
Definition get (k : Z) (t : Table A) : option (Z * A) :=
  (λ v, (k, v)) <$> rows t !! k.

(** [add]: the key generator supplies the key. *)
Definition add (v : A) (t : Table A) : Z * Table A :=
  (nextKey t, mkTable (<[nextKey t := v]> (rows t)) (nextKey t + 1)).

(** [put]: insert or replace. A row that carries its key keeps it, and
    the key generator moves past it. *)
Definition put (k : option Z) (v : A) (t : Table A) : Z * Table A :=
  match k with
  | None => add v t
  | Some k => (k, mkTable (<[k := v]> (rows t)) (Z.max (nextKey t) (k + 1)))
  end.

(** [update]: change the row stored under a key, if there is one. *)
Definition update (k : Z) (f : A → A) (t : Table A) : Table A :=
  mkTable (alter f k (rows t)) (nextKey t).

(** The order of the primary index. *)
Definition keyLe (x y : Z * A) : Prop := x.1 ≤ y.1.

#[export] Instance keyLe_dec : RelDecision keyLe.
Proof. intros x y. unfold keyLe. apply _. Defined.

(** [toArray]: all the rows, in primary-key order. *)
Definition toArray (t : Table A) : list (Z * A) :=
  merge_sort keyLe (map_to_list (rows t)).
End TableOps.

Record DatabaseRepository := mkDatabaseRepository {
  path : string;
  gitHubRepositoryID : option Z;
}.

Record DatabaseGitHubRepository := mkDatabaseGitHubRepository {
  name : string;
  ownerID : Z;
  private : bool;
  fork : bool;
  htmlURL : string;
}.

Record DatabaseOwner := mkDatabaseOwner {
  login : string;
  endpoint : string;
}.

Record Database := mkDatabase {
  repositories : Table DatabaseRepository;
  gitHubRepositories : Table DatabaseGitHubRepository;
  owners : Table DatabaseOwner;
}.

Definition emptyDatabase : Database :=
  mkDatabase emptyTable emptyTable emptyTable.

(** The keys of a collection are positive and below what the key
    generator gives next. *)
Definition keysGenerated {A} (t : Table A) : Prop :=
  0 < nextKey t ∧ map_Forall (λ k _, 0 < k < nextKey t) (rows t).

(** The references of a database resolve: every key was generated,
    every remote repository a local repository links to is stored, and
    so is the owner of every remote repository. *)
Definition consistent (db : Database) : Prop :=
  keysGenerated (repositories db)
  ∧ keysGenerated (gitHubRepositories db)
  ∧ keysGenerated (owners db)
  ∧ map_Forall (λ _ r, ∀ g, gitHubRepositoryID r = Some g →
                            is_Some (rows (gitHubRepositories db) !! g))
      (rows (repositories db))
  ∧ map_Forall (λ _ g, is_Some (rows (owners db) !! ownerID g))
      (rows (gitHubRepositories db)).

(** The remote repository a local repository links to, and the owner a
    remote repository references. *)
Definition linkOf (db : Database) (id : Z) : option Z :=
  rows (repositories db) !! id ≫= gitHubRepositoryID.

Definition ownerOf (db : Database) (g : Z) : option Z :=
  ownerID <$> rows (gitHubRepositories db) !! g.

(** Case folding of the letters A to Z. *)
Definition toLowerAscii (c : Ascii.ascii) : Ascii.ascii :=
  let n := Ascii.N_of_ascii c in
  if ((65 <=? n) && (n <=? 90))%N then Ascii.ascii_of_N (n + 32) else c.

Fixpoint toLowerCase (s : string) : string :=
  match s with
  | EmptyString => EmptyString
  | String c s' => String (toLowerAscii c) (toLowerCase s')
  end.

Definition equalsIgnoreCase (a b : string) : bool :=
  String.eqb (toLowerCase a) (toLowerCase b).

(** The order of the [login] index: by login, then by primary key. *)
Definition loginIndexLe (x y : Z * DatabaseOwner) : Prop :=
  String.ltb (login x.2) (login y.2)
  || (String.eqb (login x.2) (login y.2) && (x.1 <=? y.1)).

#[export] Instance loginIndexLe_dec : RelDecision loginIndexLe.
Proof. intros x y. unfold loginIndexLe. apply _. Defined.

(** Equality of logins up to case, as a predicate on rows. *)
Definition loginMatches (l : string) (x : Z * DatabaseOwner) : Prop :=
  equalsIgnoreCase (login x.2) l.

#[export] Instance loginMatches_dec l x : Decision (loginMatches l x).
Proof. unfold loginMatches. apply _. Defined.

(** [owners.where('login').equalsIgnoreCase(l).limit(1).first()]: the
    first row, in index order, whose login equals [l] up to case. *)
Definition firstOwnerIgnoreCase (l : string) (t : Table DatabaseOwner)
  : option (Z * DatabaseOwner) :=
  head (merge_sort loginIndexLe
          (filter (loginMatches l) (map_to_list (rows t)))).

(** *** Failures *)

(** What a rejected promise carries: a fatal error with its message, or
    the [TypeError] of reading a property of [undefined]. *)
Inductive Failure :=
| FatalError (msg : string)
| TypeError.

(** A transaction body runs on the database and either fails, leaving
    nothing written, or gives a value and the database to commit. *)
Definition Txn (A : Type) : Type := Database → Failure + A * Database.

#[export] Instance Txn_ret : MRet Txn := λ A a db, inr (a, db).
#[export] Instance Txn_bind : MBind Txn := λ A B f m db,
  match m db with
  | inl e => inl e
  | inr (a, db') => f a db'
  end.

(** Modelled from the spec: [fatalError] ([../lib/fatal-error]) is not
    among the sources. It raises the fatal contract error, which is
    distinct from a recoverable storage error. *)
Definition fatalError {A} (msg : string) : Txn A := λ _, inl (FatalError msg).

(** Reading a property of a value that may be [undefined]. *)
Definition defined {A} (o : option A) : Txn A :=
  λ db, match o with Some a => inr (a, db) | None => inl TypeError end.

Definition reads {A} (f : Database → A) : Txn A := λ db, inr (f db, db).

Definition repositories_add (v : DatabaseRepository) : Txn Z :=
  λ db, let '(k, t) := add v (repositories db) in
        inr (k, mkDatabase t (gitHubRepositories db) (owners db)).

Definition repositories_update (k : Z)
    (f : DatabaseRepository → DatabaseRepository) : Txn unit :=
  λ db, inr (tt, mkDatabase (update k f (repositories db))
                   (gitHubRepositories db) (owners db)).

Definition gitHubRepositories_put (k : option Z)
    (v : DatabaseGitHubRepository) : Txn Z :=
  λ db, let '(k, t) := put k v (gitHubRepositories db) in
        inr (k, mkDatabase (repositories db) t (owners db)).

Definition owners_add (v : DatabaseOwner) : Txn Z :=
  λ db, let '(k, t) := add v (owners db) in
        inr (k, mkDatabase (repositories db) (gitHubRepositories db) t).

(** The mode a transaction is opened in. *)
Inductive TransactionMode := ReadOnly | ReadWrite.

(** The datastore as the store's methods see it: the database and the
    log of the transactions opened on it, oldest first. *)
Record Datastore := mkDatastore {
  database : Database;
  transactions : list TransactionMode;
}.

(** A method of the store runs on the datastore, and its promise either
    rejects or resolves; what its transactions committed stays either
    way. *)
Definition Method (A : Type) : Type := Datastore → (Failure + A) * Datastore.

#[export] Instance Method_ret : MRet Method := λ A a st, (inr a, st).
#[export] Instance Method_bind : MBind Method := λ A B f m st,
  match m st with
  | (inl e, st') => (inl e, st')
  | (inr a, st') => f a st'
  end.

(** [await db.transaction(mode, ..., body)]: open a transaction, then
    commit what the body wrote, or roll back and reject. *)
Definition transaction {A} (mode : TransactionMode) (body : Txn A) : Method A :=
  λ st, let log := (transactions st ++ [mode])%list in
        match body (database st) with
        | inl e => (inl e, mkDatastore (database st) log)
        | inr (a, db') => (inr a, mkDatastore db' log)
        end.

(** A fatal error raised outside of any transaction. *)
Definition fatal {A} (msg : string) : Method A := λ st, (inl (FatalError msg), st).

(** *** The methods of [RepositoriesStore] *)

(** Inflate one row of [repositories]. *)
Definition inflate (repo : Z * DatabaseRepository) : Txn Repository :=
  match truthy (gitHubRepositoryID repo.2) with
  | Some gitHubRepositoryID =>
      gitHubRepository ← reads (λ db, get gitHubRepositoryID (gitHubRepositories db));
      gitHubRepository ← defined gitHubRepository;
      owner ← reads (λ db, get (ownerID gitHubRepository.2) (owners db));
      owner ← defined owner;
      let gitHubRepo :=
        mkGitHubRepository (name gitHubRepository.2)
          (mkOwner (login owner.2) (endpoint owner.2))
          (private gitHubRepository.2) (fork gitHubRepository.2)
          (htmlURL gitHubRepository.2) in
      mret (mkRepository (path repo.2) (Some gitHubRepo) (Some repo.1))
  | None =>
      mret (mkRepository (path repo.2) None (Some repo.1))
  end.

(** Get all the local repositories. *)
Definition getRepositories : Method (list Repository) :=
  transaction ReadOnly (
    repos ← reads (λ db, toArray (repositories db));
    mapM inflate repos).

(** The owner to reference: the one of the existing remote repository
    when the local repository has one, else the owner found by login or
    a new one. Also gives the existing remote repository, if any. *)
Definition resolveOwner (localRepo : Z * DatabaseRepository)
    (newGitHubRepo : GitHubRepository)
  : Txn (option (Z * DatabaseGitHubRepository) * Z) :=
  match truthy (gitHubRepositoryID localRepo.2) with
  | Some gitHubRepositoryID =>
      existingGitHubRepo ← reads (λ db, get gitHubRepositoryID (gitHubRepositories db));
      match existingGitHubRepo with
      | None => fatalError "Couldn't look up an existing GitHub repository."
      | Some existing =>
          owner ← reads (λ db, get (ownerID existing.2) (owners db));
          owner ← defined owner;
          mret (Some existing, owner.1)
      end
  | None =>
      let owner := getOwner newGitHubRepo in
      existingOwner ← reads (λ db, firstOwnerIgnoreCase (getLogin owner) (owners db));
      match existingOwner with
      | Some existingOwner => mret (None, existingOwner.1)
      | None =>
          ownerID ← owners_add (mkDatabaseOwner (getLogin owner) (getEndpoint owner));
          mret (None, ownerID)
      end
  end.

(** The change [{gitHubRepositoryID}] applied to a local row. *)
Definition relink (gitHubRepositoryID : Z) (localRepo : DatabaseRepository)
  : DatabaseRepository :=
  mkDatabaseRepository (path localRepo) (Some gitHubRepositoryID).

(** The row to write for a remote repository, short of its [id]. *)
Definition info (newGitHubRepo : GitHubRepository) (ownerID : Z)
  : DatabaseGitHubRepository :=
  mkDatabaseGitHubRepository (getName newGitHubRepo) ownerID
    (getPrivate newGitHubRepo) (getFork newGitHubRepo)
    (getHTMLURL newGitHubRepo).

(** Update or add the repository's GitHub repository. *)
Definition updateGitHubRepository (repository : Repository) : Method unit :=
  match truthy (getID repository) with
  | None =>
      fatal "`updateGitHubRepository` can only update a GitHub repository for a repository which has been added to the database."
  | Some repoID =>
      match getGitHubRepository repository with
      | None =>
          fatal "`updateGitHubRepository` can only update a GitHub repository. It cannot remove one."
      | Some newGitHubRepo =>
          transaction ReadWrite (
            localRepo ← reads (λ db, get repoID (repositories db));
            localRepo ← defined localRepo;
            '(existingGitHubRepo, ownerID) ← resolveOwner localRepo newGitHubRepo;
            gitHubRepositoryID ← gitHubRepositories_put (fst <$> existingGitHubRepo)
                                   (info newGitHubRepo ownerID);
            repositories_update localRepo.1 (relink gitHubRepositoryID))
      end
  end.

(** Add a new local repository. *)
Definition addRepository (repo : Repository) : Method Repository :=
  id ← transaction ReadWrite
         (repositories_add (mkDatabaseRepository (getPath repo) None));
  let repoWithID := withID repo id in
  match getGitHubRepository repo with
  | Some _ => updateGitHubRepository repoWithID
  | None => mret tt
  end;;
  mret repoWithID.

(** *** Derived notions *)

(** What inflating a local row gives when its references resolve. *)
Definition inflated (db : Database) (repo : Z * DatabaseRepository) : Repository :=
  mkRepository (path repo.2)
    (g ← truthy (gitHubRepositoryID repo.2);
     e ← rows (gitHubRepositories db) !! g;
     o ← rows (owners db) !! ownerID e;
     Some (mkGitHubRepository (name e) (mkOwner (login o) (endpoint o))
             (private e) (fork e) (htmlURL e)))
    (Some repo.1).

(** Repeated [updateGitHubRepository] calls on one local repository, one
    per payload. *)
Fixpoint updateAll (repository : Repository) (payloads : list GitHubRepository)
  : Method unit :=
  match payloads with
  | [] => mret tt
  | newGitHubRepo :: payloads' =>
      updateGitHubRepository
        (mkRepository (getPath repository) (Some newGitHubRepo) (getID repository));;
      updateAll repository payloads'
  end.

(** No two stored owners have the same login up to case. *)
Definition ownersDistinct (t : Table DatabaseOwner) : Prop :=
  ∀ k1 k2 o1 o2,
    rows t !! k1 = Some o1 → rows t !! k2 = Some o2 →
    equalsIgnoreCase (login o1) (login o2) = true → k1 = k2.

(** How the owners change in one upsert: not at all, or by one new owner
    whose login nothing stored matched. *)
Definition ownersGrow (t t' : Table DatabaseOwner) : Prop :=
  t' = t
  ∨ ∃ l e, firstOwnerIgnoreCase l t = None ∧ t' = (add (mkDatabaseOwner l e) t).2.

(** The datastores the store can be in: it starts on an empty database
    and only its own methods write to it. *)
Inductive reachable : Datastore → Prop :=
| reachable_empty log :
    reachable (mkDatastore emptyDatabase log)
| reachable_getRepositories st :
    reachable st → reachable (getRepositories st).2
| reachable_addRepository st repo :
    reachable st → reachable (addRepository repo st).2
| reachable_updateGitHubRepository st repository :
    reachable st → reachable (updateGitHubRepository repository st).2.

End Catalog.

(** ** Concrete stores and batches *)

Module Examples.
Import Git.

Definition commit (sha : string) : Commit :=
  mkCommit sha "summary" "" "Alice" "alice@example.com" 1480000000 [].

(** A store that has loaded the history [c0; c1; c2]. *)
Definition loaded : GitStore := mkGitStore ∅ ["c0"; "c1"; "c2"] ∅ [].

(** A store that has loaded nothing yet. *)
Definition fresh : GitStore := mkGitStore ∅ [] ∅ [].

(** HEAD has moved on by two commits. *)
Definition ahead : list Commit :=
  [commit "n0"; commit "n1"; commit "c0"; commit "c1"].

(** HEAD is on an unrelated line of history. *)
Definition unrelated : list Commit := [commit "n0"; commit "n1"].

Definition gitFailure : Error := mkError "fatal: not a git repository".

Import Catalog.

(** A datastore on which nothing has been stored or opened yet. *)
Definition emptyStore : Datastore := mkDatastore emptyDatabase [].

Definition desktop : GitHubRepository :=
  mkGitHubRepository "desktop" (mkOwner "Alice" "https://api.github.com")
    false false "https://github.com/Alice/desktop".

(** A repository of the same owner, whose login is spelled in lower
    case this time. *)
Definition dotfiles : GitHubRepository :=
  mkGitHubRepository "dotfiles" (mkOwner "alice" "https://api.github.com")
    true false "https://github.com/alice/dotfiles".

Definition desktopClone : Repository :=
  mkRepository "/work/desktop" (Some desktop) None.

Definition dotfilesClone : Repository :=
  mkRepository "/work/dotfiles" (Some dotfiles) None.

Definition bare (path : string) : Repository := mkRepository path None None.

End Examples.

(** ** Notions for the properties of the loaders *)

Module GitNotions.
Import Git.

(** Every SHA of the history can be looked up in [commits]. *)
Definition historyKnown (s : GitStore) : Prop :=
  ∀ x, x ∈ _history s → is_Some (commits s !! x).

(** Structural induction on what a computation does next. *)
Fixpoint Step_induction {A} (P : Step A → Prop)
    (HRet : ∀ a, P (Ret a)) (HThrow : ∀ e, P (Throw e))
    (HAwait : ∀ c k, (∀ r s, P (k r s).2) → P (Await c k))
    (st : Step A) : P st :=
  match st with
  | Ret a => HRet a
  | Throw e => HThrow e
  | Await c k =>
      HAwait c k
        (λ r s, match k r s as p return P p.2 with
                | (_, st') => Step_induction P HRet HThrow HAwait st'
                end)
  end.

End GitNotions.

(** ** Notions for the properties of the catalog *)

Module CatalogNotions.
Import Catalog.

(** The database after the insert of [addRepository]. *)
Definition inserted (path : string) (db : Database) : Database :=
  mkDatabase (add (mkDatabaseRepository path None) (repositories db)).2
    (gitHubRepositories db) (owners db).

(** No remote repository is linked to by two local repositories. *)
Definition linksInjective (db : Database) : Prop :=
  ∀ i j g, linkOf db i = Some g → linkOf db j = Some g → i = j.

(** One call of a method of the store. *)
Inductive called (st : Datastore) : Datastore → Prop :=
| called_getRepositories :
    called st (getRepositories st).2
| called_addRepository repo :
    called st (addRepository repo st).2
| called_updateGitHubRepository repository :
    called st (updateGitHubRepository repository st).2.

(** Any number of calls, one after the other. *)
Definition later : Datastore → Datastore → Prop := rtc called.

(** What the later database keeps of the earlier one: every owner row as
    it is, every local repository with its path and its link, and every
    remote repository with its owner. *)
Definition persists (db db' : Database) : Prop :=
  (∀ k o, rows (owners db) !! k = Some o → rows (owners db') !! k = Some o)
  ∧ (∀ i lr, rows (repositories db) !! i = Some lr →
       ∃ lr', rows (repositories db') !! i = Some lr'
              ∧ path lr' = path lr
              ∧ ∀ g, gitHubRepositoryID lr = Some g →
                     gitHubRepositoryID lr' = Some g)
  ∧ (∀ g e, rows (gitHubRepositories db) !! g = Some e →
       ∃ e', rows (gitHubRepositories db') !! g = Some e'
             ∧ ownerID e' = ownerID e).

End CatalogNotions.

(** ** Facts about the array helpers *)

Module JSFacts.
Import JS.

Section Arrays.
Context {A : Type}.
Implicit Types (p : A → bool) (l : list A).

Lemma findIndexFrom_missing i p l :
  (∀ x, x ∈ l → p x = false) → findIndexFrom i p l = -1.
Proof.
  revert i. induction l as [|x l IH]; intros i Hl; [done|].
  cbn. rewrite Hl by left. apply IH. intros y Hy. apply Hl. by right.
Qed.

Lemma findIndexFrom_first i p l (n : nat) x :
  l !! n = Some x → p x = true →
  (∀ j y, (j < n)%nat → l !! j = Some y → p y = false) →
  findIndexFrom i p l = i + Z.of_nat n.
Proof.
  revert i n. induction l as [|a l IH]; intros i n Hn Hp Hfirst; [done|].
  destruct n as [|n]; cbn in *.
  - simplify_eq. rewrite Hp. lia.
  - rewrite (Hfirst 0%nat a) by (done || lia).
    rewrite (IH (i + 1) n); [lia|done..|].
    intros j y Hj Hy. apply (Hfirst (S j) y); [lia|done].
Qed.

Lemma findIndex_missing p l :
  (∀ x, x ∈ l → p x = false) → findIndex p l = -1.
Proof. apply findIndexFrom_missing. Qed.

Lemma findIndex_first p l (n : nat) x :
  l !! n = Some x → p x = true →
  (∀ j y, (j < n)%nat → l !! j = Some y → p y = false) →
  findIndex p l = Z.of_nat n.
Proof. intros. unfold findIndex. by erewrite findIndexFrom_first. Qed.

Lemma slice_prefix l (n : nat) :
  (n ≤ length l)%nat → slice l 0 (Z.of_nat n) = take n l.
Proof.
  intros Hn. unfold slice, clampIndex. cbn.
  destruct (Z.of_nat n <? 0) eqn:Hneg; [lia|].
  rewrite Z.min_l by lia.
  replace (Z.to_nat (Z.of_nat n - Z.min 0 (Z.of_nat (length l)))) with n by lia.
  by replace (Z.to_nat (Z.min 0 (Z.of_nat (length l)))) with 0%nat by lia.
Qed.
End Arrays.

End JSFacts.

(** ** Facts about the commit history cache *)

Module GitFacts.
Import JS JSFacts Git.
#[local] Open Scope list_scope.

Implicit Types (s : GitStore) (r : GitResult) (git : GitCall → GitResult).

(** *** The loaders, unfolded *)

Lemma loadHistory_guarded s :
  LoadingHistoryRequestKey ∈ requestsInFight s →
  loadHistory s = (s, Ret tt).
Proof.
  intros Hin. unfold loadHistory, mbind, Async_bind, bind, requestsInFight_has, gets.
  cbn. rewrite bool_decide_eq_true_2 by done. reflexivity.
Qed.

Lemma loadHistory_issued s :
  LoadingHistoryRequestKey ∉ requestsInFight s →
  ∃ k, loadHistory s
       = (set_requestsInFight (λ rs, rs ∪ {[LoadingHistoryRequestKey]}) s,
          Await HEADCall k)
     ∧ ∀ r s', k r s' = (loadHistory_settled r s', Ret tt).
Proof.
  intros Hin. unfold loadHistory, mbind, Async_bind, bind, requestsInFight_has, gets.
  cbn. rewrite bool_decide_eq_false_2 by done. cbn.
  eexists. split; [reflexivity|].
  intros [fetched|e] s'; cbn; [|reflexivity].
  unfold loadHistory_settled. destruct (reconcile fetched (_history s')); reflexivity.
Qed.

Lemma loadNextHistoryBatch_guarded s :
  nextBatchGuard s = None → loadNextHistoryBatch s = (s, Ret tt).
Proof.
  unfold nextBatchGuard, loadNextHistoryBatch, mbind, Async_bind, bind,
    requestsInFight_has, gets. cbn.
  destruct (bool_decide (LoadingHistoryRequestKey ∈ _)); [done|]. cbn.
  destruct (last (_history s)) as [lastSHA|]; [|done]. cbn.
  destruct (bool_decide (_ ∈ _)); done.
Qed.

Lemma loadNextHistoryBatch_issued s lastSHA :
  nextBatchGuard s = Some lastSHA →
  ∃ k, loadNextHistoryBatch s
       = (set_requestsInFight (λ rs, rs ∪ {["history/" +:+ lastSHA]}) s,
          Await (nextCall lastSHA) k)
     ∧ ∀ r s', k r s'
               = (loadNextHistoryBatch_settled ("history/" +:+ lastSHA) r s', Ret tt).
Proof.
  unfold nextBatchGuard, loadNextHistoryBatch, mbind, Async_bind, bind,
    requestsInFight_has, gets. cbn.
  destruct (bool_decide (LoadingHistoryRequestKey ∈ _)); [done|]. cbn.
  destruct (last (_history s)) as [lastSHA'|]; [|done]. cbn.
  destruct (bool_decide (_ ∈ _)); [done|]. intros [= ->]. cbn.
  eexists. split; [reflexivity|].
  intros [fetched|e] s'; reflexivity.
Qed.

Lemma nextBatchGuard_Some s lastSHA :
  nextBatchGuard s = Some lastSHA ↔
  ((LoadingHistoryRequestKey ∉ requestsInFight s)
   ∧ last (_history s) = Some lastSHA
   ∧ ("history/" +:+ lastSHA) ∉ requestsInFight s).
Proof.
  unfold nextBatchGuard. case_bool_decide as Hh.
  { split; [done|]. by intros (? & _). }
  destruct (last (_history s)) as [l|].
  2: { split; [done|]. by intros (_ & ? & _). }
  case_bool_decide as Hk.
  - split; [done|]. intros (_ & [= ->] & ?). done.
  - split; [by intros [= ->]|]. by intros (_ & [= ->] & _).
Qed.

(** Called and awaited with nothing in between. *)
Lemma run_loadHistory git s :
  LoadingHistoryRequestKey ∉ requestsInFight s →
  run git loadHistory s
  = mkOutcome
      (loadHistory_settled (git HEADCall)
         (set_requestsInFight (λ rs, rs ∪ {[LoadingHistoryRequestKey]}) s))
      (inr tt) [HEADCall].
Proof.
  intros Hin. destruct (loadHistory_issued s Hin) as (k & Heq & Hk).
  unfold run. rewrite Heq. cbn. rewrite Hk. reflexivity.
Qed.

Lemma run_loadNextHistoryBatch git s lastSHA :
  nextBatchGuard s = Some lastSHA →
  run git loadNextHistoryBatch s
  = mkOutcome
      (loadNextHistoryBatch_settled ("history/" +:+ lastSHA)
         (git (nextCall lastSHA))
         (set_requestsInFight (λ rs, rs ∪ {["history/" +:+ lastSHA]}) s))
      (inr tt) [nextCall lastSHA].
Proof.
  intros Hg. destruct (loadNextHistoryBatch_issued s lastSHA Hg) as (k & Heq & Hk).
  unfold run. rewrite Heq. cbn. rewrite Hk. reflexivity.
Qed.

(** *** Reconciliation *)

Lemma reconcile_found (fetched : list Commit) mostRecent older (i : nat) c :
  fetched !! i = Some c → sha c = mostRecent →
  (∀ j c', (j < i)%nat → fetched !! j = Some c' → sha c' ≠ mostRecent) →
  reconcile fetched (mostRecent :: older) = (take i fetched, mostRecent :: older).
Proof.
  intros Hi Hc Hfirst. unfold reconcile.
  rewrite (findIndex_first _ fetched i c Hi).
  - destruct (Z.gtb_spec (Z.of_nat i) (-1)); [|lia].
    rewrite slice_prefix; [done|]. apply lookup_lt_Some in Hi. lia.
  - by apply String.eqb_eq.
  - intros j c' Hj Hc'. apply String.eqb_neq. eauto.
Qed.

Lemma reconcile_missing (fetched : list Commit) mostRecent older :
  (∀ c, c ∈ fetched → sha c ≠ mostRecent) →
  reconcile fetched (mostRecent :: older) = (fetched, []).
Proof.
  intros Hno. unfold reconcile. rewrite findIndex_missing; [done|].
  intros c Hc. apply String.eqb_neq. eauto.
Qed.

Lemma history_loadHistory_settled fetched s :
  _history (loadHistory_settled (Resolved fetched) s)
  = ((sha <$> (reconcile fetched (_history s)).1)
     ++ (reconcile fetched (_history s)).2)%list.
Proof. cbn. by destruct (reconcile _ _). Qed.

(** *** History reconciliation on a completed load *)

(** C1. With a non-empty history [mostRecent :: older] and a fetch from
    HEAD that resolves to a batch in which the search finds [mostRecent]
    at position [i], a [loadHistory] call leaves as history the batch
    truncated to its first [i] SHAs followed by the whole previous
    history, unchanged. *)
Theorem loadHistory_splices_new_prefix git s fetched (i : nat) c mostRecent older :
  LoadingHistoryRequestKey ∉ requestsInFight s →
  _history s = mostRecent :: older →
  git HEADCall = Resolved fetched →
  fetched !! i = Some c → sha c = mostRecent →
  (∀ j c', (j < i)%nat → fetched !! j = Some c' → sha c' ≠ mostRecent) →
  _history (final (run git loadHistory s))
  = ((sha <$> take i fetched) ++ mostRecent :: older)%list.
Proof.
  intros Hin Hhist Hgit Hi Hc Hfirst.
  rewrite run_loadHistory by done. rewrite Hgit. cbn [final].
  rewrite history_loadHistory_settled. cbn [_history set_requestsInFight].
  rewrite Hhist. by erewrite reconcile_found.
Qed.

Lemma loadHistory_splices_new_prefix_witness :
  _history (final (run (λ _, Resolved Examples.ahead) loadHistory Examples.loaded))
  = ((sha <$> take 2 Examples.ahead) ++ ["c0"; "c1"; "c2"])%list.
Proof.
  apply (loadHistory_splices_new_prefix (λ _, Resolved Examples.ahead)
           Examples.loaded Examples.ahead 2%nat (Examples.commit "c0") "c0" ["c1"; "c2"]).
  - cbn. apply not_elem_of_empty.
  - reflexivity.
  - reflexivity.
  - reflexivity.
  - reflexivity.
  - intros [|[|j]] c' Hj Hc'; [| |lia]; cbn in Hc'; by simplify_eq.
Defined.

(** The example of the specification: the old history [c0; c1; c2] and
    the batch [n0; n1; c0; c1] give the history [n0; n1; c0; c1; c2]. *)
Example splice_two_new_commits :
  _history (final (run (λ _, Resolved Examples.ahead) loadHistory Examples.loaded))
  = ["n0"; "n1"; "c0"; "c1"; "c2"].
Proof. vm_compute. reflexivity. Qed.

(** When the SHAs of the batch are pairwise distinct, every position of
    [mostRecent] in the batch is the one the search finds. *)
Lemma first_position_of_distinct (fetched : list Commit) (i : nat) c :
  NoDup (sha <$> fetched) → fetched !! i = Some c →
  ∀ j c', (j < i)%nat → fetched !! j = Some c' → sha c' ≠ sha c.
Proof.
  intros Hnd Hi j c' Hj Hc' Heq.
  assert (j = i) as ->; [|lia].
  eapply (NoDup_lookup (sha <$> fetched)); [done|..].
  - by rewrite list_lookup_fmap, Hc'.
  - by rewrite list_lookup_fmap, Hi, Heq.
Qed.

(** A Git log lists a commit once: then the position of [mostRecent] in
    the batch is unique, and the splice happens there. *)
Lemma history_after_splice_distinct git s fetched (i : nat) c mostRecent older :
  LoadingHistoryRequestKey ∉ requestsInFight s →
  _history s = mostRecent :: older →
  git HEADCall = Resolved fetched →
  NoDup (sha <$> fetched) →
  fetched !! i = Some c → sha c = mostRecent →
  _history (final (run git loadHistory s))
  = ((sha <$> take i fetched) ++ mostRecent :: older)%list.
Proof.
  intros Hin Hhist Hgit Hnd Hi Hc.
  rewrite run_loadHistory by done. rewrite Hgit. cbn [final].
  rewrite history_loadHistory_settled. cbn [_history set_requestsInFight].
  rewrite Hhist. erewrite reconcile_found; [done..|].
  rewrite <- Hc. by eapply first_position_of_distinct.
Qed.

(** C2. With a non-empty history [mostRecent :: older] and a fetch from
    HEAD that resolves to a batch that does not contain [mostRecent], a
    [loadHistory] call leaves as history exactly the SHAs of the batch:
    every prior entry is discarded. *)
Theorem loadHistory_resets_on_divergence git s fetched mostRecent older :
  LoadingHistoryRequestKey ∉ requestsInFight s →
  _history s = mostRecent :: older →
  git HEADCall = Resolved fetched →
  (∀ c, c ∈ fetched → sha c ≠ mostRecent) →
  _history (final (run git loadHistory s)) = sha <$> fetched.
Proof.
  intros Hin Hhist Hgit Hno.
  rewrite run_loadHistory by done. rewrite Hgit. cbn [final].
  rewrite history_loadHistory_settled. cbn [_history set_requestsInFight].
  rewrite Hhist, reconcile_missing by done. cbn. by rewrite app_nil_r.
Qed.

Lemma loadHistory_resets_on_divergence_witness :
  _history (final (run (λ _, Resolved Examples.unrelated) loadHistory Examples.loaded))
  = sha <$> Examples.unrelated.
Proof.
  apply (loadHistory_resets_on_divergence (λ _, Resolved Examples.unrelated)
           Examples.loaded Examples.unrelated "c0" ["c1"; "c2"]).
  - cbn. apply not_elem_of_empty.
  - reflexivity.
  - reflexivity.
  - intros c Hc. apply list_elem_of_In in Hc. cbn in Hc.
    destruct Hc as [<-|[<-|[]]]; done.
Defined.

(** *** Failure of the Git collaborator *)

(** C7. When the Git invocation of a [loadNextHistoryBatch] call rejects,
    the history and the commits map are what they were before the call,
    the emitter has fired exactly one more notification, the error, and
    the call's own promise resolves: the failure does not reach the
    caller. *)
Theorem loadNextHistoryBatch_failure_isolated git s lastSHA e :
  LoadingHistoryRequestKey ∉ requestsInFight s →
  last (_history s) = Some lastSHA →
  "history/" +:+ lastSHA ∉ requestsInFight s →
  git (nextCall lastSHA) = Rejected e →
  let out := run git loadNextHistoryBatch s in
  _history (final out) = _history s
  ∧ commits (final out) = commits s
  ∧ emitted (final out) = (emitted s ++ [DidError e])%list
  ∧ completion out = inr tt
  ∧ invoked out = [nextCall lastSHA].
Proof.
  intros Hhistory Hlast Hbatch Hgit. cbn zeta.
  rewrite (run_loadNextHistoryBatch git s lastSHA), Hgit; [done|].
  by apply nextBatchGuard_Some.
Qed.

Lemma loadNextHistoryBatch_failure_isolated_witness :
  let out := run (λ _, Rejected Examples.gitFailure) loadNextHistoryBatch
               Examples.loaded in
  _history (final out) = _history Examples.loaded
  ∧ commits (final out) = commits Examples.loaded
  ∧ emitted (final out)
    = (emitted Examples.loaded ++ [DidError Examples.gitFailure])%list
  ∧ completion out = inr tt
  ∧ invoked out = [nextCall "c2"].
Proof.
  apply (loadNextHistoryBatch_failure_isolated (λ _, Rejected Examples.gitFailure)
           Examples.loaded "c2" Examples.gitFailure).
  - cbn. apply not_elem_of_empty.
  - reflexivity.
  - cbn. apply not_elem_of_empty.
  - reflexivity.
Defined.

(** C8 (what the code does). When the Git invocation of a [loadHistory]
    call rejects, the error is emitted and the history and the commits
    map are untouched, but the request key ["history"] that the call
    added stays in the in-flight set: the set is not what it was before
    the call. *)
Theorem loadHistory_failure_leaves_request_key git s e :
  LoadingHistoryRequestKey ∉ requestsInFight s →
  git HEADCall = Rejected e →
  let out := run git loadHistory s in
  _history (final out) = _history s
  ∧ commits (final out) = commits s
  ∧ emitted (final out) = (emitted s ++ [DidError e])%list
  ∧ completion out = inr tt
  ∧ requestsInFight (final out) = requestsInFight s ∪ {[LoadingHistoryRequestKey]}
  ∧ requestsInFight (final out) ≠ requestsInFight s.
Proof.
  intros Hin Hgit. cbn zeta. rewrite run_loadHistory, Hgit by done. cbn.
  repeat split. intros Heq. apply Hin. rewrite <- Heq.
  apply elem_of_union_r. by apply elem_of_singleton.
Qed.

Lemma loadHistory_failure_leaves_request_key_witness :
  let out := run (λ _, Rejected Examples.gitFailure) loadHistory Examples.fresh in
  _history (final out) = _history Examples.fresh
  ∧ commits (final out) = commits Examples.fresh
  ∧ emitted (final out)
    = (emitted Examples.fresh ++ [DidError Examples.gitFailure])%list
  ∧ completion out = inr tt
  ∧ requestsInFight (final out)
    = requestsInFight Examples.fresh ∪ {[LoadingHistoryRequestKey]}
  ∧ requestsInFight (final out) ≠ requestsInFight Examples.fresh.
Proof.
  apply (loadHistory_failure_leaves_request_key (λ _, Rejected Examples.gitFailure)
           Examples.fresh Examples.gitFailure).
  - cbn. apply not_elem_of_empty.
  - reflexivity.
Defined.

(** *** Calls on the event loop *)

Implicit Types (sys : System) (t : Task).

Lemma call_loadHistory_guarded sys :
  LoadingHistoryRequestKey ∈ requestsInFight (store sys) →
  call loadHistory sys = sys.
Proof.
  intros Hin. unfold call. rewrite loadHistory_guarded by done. by destruct sys.
Qed.

Lemma call_loadHistory_issued sys :
  LoadingHistoryRequestKey ∉ requestsInFight (store sys) →
  ∃ k, call loadHistory sys
       = mkSystem
           (set_requestsInFight (λ rs, rs ∪ {[LoadingHistoryRequestKey]}) (store sys))
           (pending sys ++ [mkTask HEADCall k])
           (invocations sys ++ [HEADCall])
     ∧ ∀ r s', k r s' = (loadHistory_settled r s', Ret tt).
Proof.
  intros Hin. destruct (loadHistory_issued _ Hin) as (k & Heq & Hk).
  exists k. split; [|done]. unfold call. by rewrite Heq.
Qed.

Lemma call_loadNextHistoryBatch_guarded sys :
  nextBatchGuard (store sys) = None →
  call loadNextHistoryBatch sys = sys.
Proof.
  intros Hg. unfold call. rewrite loadNextHistoryBatch_guarded by done.
  by destruct sys.
Qed.

Lemma call_loadNextHistoryBatch_issued sys lastSHA :
  nextBatchGuard (store sys) = Some lastSHA →
  ∃ k, call loadNextHistoryBatch sys
       = mkSystem
           (set_requestsInFight (λ rs, rs ∪ {["history/" +:+ lastSHA]}) (store sys))
           (pending sys ++ [mkTask (nextCall lastSHA) k])
           (invocations sys ++ [nextCall lastSHA])
     ∧ ∀ r s', k r s'
               = (loadNextHistoryBatch_settled ("history/" +:+ lastSHA) r s', Ret tt).
Proof.
  intros Hg. destruct (loadNextHistoryBatch_issued _ _ Hg) as (k & Heq & Hk).
  exists k. split; [|done]. unfold call. by rewrite Heq.
Qed.

(** Settling a task whose continuation runs to the end. *)
Lemma settle_finishing sys n t r (f : GitResult → GitStore → GitStore) :
  pending sys !! n = Some t →
  (∀ r s', resume t r s' = (f r s', Ret tt)) →
  settle n r sys
  = mkSystem (f r (store sys)) (delete n (pending sys)) (invocations sys).
Proof. intros Hn Hk. unfold settle. rewrite Hn, Hk. reflexivity. Qed.

(** C6. A [loadHistory] call issued while the request key ["history"] is
    in flight changes nothing: no Git invocation, no notification, no
    error. In particular, for two calls issued one after the other
    before the fetch of the first settles, the second is such a no-op,
    Git is invoked exactly once, and when the fetch resolves the emitter
    fires exactly one new-commits notification followed by one update. *)
Theorem loadHistory_deduplicated sys r :
  LoadingHistoryRequestKey ∉ requestsInFight (store sys) →
  let first := call loadHistory sys in
  let second := call loadHistory first in
  let settled := settle (length (pending sys)) r second in
  (∀ sys', LoadingHistoryRequestKey ∈ requestsInFight (store sys') →
           call loadHistory sys' = sys')
  ∧ second = first
  ∧ invocations second = (invocations sys ++ [HEADCall])%list
  ∧ invocations settled = (invocations sys ++ [HEADCall])%list
  ∧ pending settled = pending sys
  ∧ ∀ fetched, r = Resolved fetched →
      emitted (store settled)
      = (emitted (store sys)
         ++ [DidLoadNewCommits (reconcile fetched (_history (store sys))).1;
             DidUpdate])%list.
Proof.
  intros Hin. cbn zeta.
  destruct (call_loadHistory_issued sys Hin) as (k & -> & Hk).
  split; [apply call_loadHistory_guarded|].
  rewrite call_loadHistory_guarded.
  2: { cbn. apply elem_of_union_r. by apply elem_of_singleton. }
  split; [done|]. split; [done|].
  rewrite (settle_finishing _ _ (mkTask HEADCall k) r loadHistory_settled);
    [|by apply list_lookup_middle|exact Hk].
  cbn [invocations pending store].
  split; [done|]. split.
  { rewrite delete_middle. apply app_nil_r. }
  intros fetched ->. cbn. destruct (reconcile _ _). cbn.
  by rewrite <- app_assoc.
Qed.

Lemma loadHistory_deduplicated_witness :
  let sys := idle Examples.loaded in
  let first := call loadHistory sys in
  let second := call loadHistory first in
  let settled := settle (length (pending sys)) (Resolved Examples.ahead) second in
  (∀ sys', LoadingHistoryRequestKey ∈ requestsInFight (store sys') →
           call loadHistory sys' = sys')
  ∧ second = first
  ∧ invocations second = (invocations sys ++ [HEADCall])%list
  ∧ invocations settled = (invocations sys ++ [HEADCall])%list
  ∧ pending settled = pending sys
  ∧ ∀ fetched, Resolved Examples.ahead = Resolved fetched →
      emitted (store settled)
      = (emitted (store sys)
         ++ [DidLoadNewCommits (reconcile fetched (_history (store sys))).1;
             DidUpdate])%list.
Proof.
  apply (loadHistory_deduplicated (idle Examples.loaded) (Resolved Examples.ahead)).
  cbn. apply not_elem_of_empty.
Defined.

(** *** Request keys along executions *)

Lemma nextCall_inj a b : nextCall a = nextCall b → a = b.
Proof.
  unfold nextCall. intros [= Heq]. revert b Heq.
  induction a as [|x a IH]; intros [|y b] Heq; try done.
  - cbv [String.append] in Heq. fold String.append in Heq.
    destruct b; simplify_eq.
  - cbv [String.append] in Heq. fold String.append in Heq.
    destruct a; simplify_eq.
  - cbv [String.append] in Heq. fold String.append in Heq.
    simplify_eq. f_equal. by apply IH.
Qed.

Lemma HEADCall_not_nextCall lastSHA : HEADCall ≠ nextCall lastSHA.
Proof.
  unfold HEADCall, nextCall. intros [= Heq].
  destruct lastSHA as [|a1 [|a2 [|a3 [|a4 [|a5 rest]]]]];
    cbv [String.append] in Heq; discriminate.
Qed.

Lemma history_key_not_batch_key lastSHA :
  LoadingHistoryRequestKey ≠ "history/" +:+ lastSHA.
Proof. done. Qed.

Lemma holds_awaiting_HEAD t key :
  holds t key → awaiting t = HEADCall → key = LoadingHistoryRequestKey.
Proof.
  intros [t' _ _|t' lastSHA Ha _] Hhead; [done|].
  rewrite Hhead in Ha. by apply HEADCall_not_nextCall in Ha.
Qed.

Lemma holds_awaiting_next t key lastSHA :
  holds t key → awaiting t = nextCall lastSHA → key = "history/" +:+ lastSHA.
Proof.
  intros [t' Ha _|t' lastSHA' Ha _] Hnext.
  - rewrite Hnext in Ha. symmetry in Ha. by apply HEADCall_not_nextCall in Ha.
  - rewrite Hnext in Ha. by apply nextCall_inj in Ha as ->.
Qed.

(** Resuming a task finishes its call; it removes at most its own key,
    and nothing when the fetch was rejected. *)
Lemma holds_resume t key r s :
  holds t key →
  ∃ s', resume t r s = (s', Ret tt)
        ∧ (∀ key', key' ≠ key → key' ∈ requestsInFight s → key' ∈ requestsInFight s')
        ∧ (∀ e, r = Rejected e → requestsInFight s' = requestsInFight s).
Proof.
  intros [t' _ Hk|t' lastSHA _ Hk]; rewrite Hk; eexists; (split; [done|]).
  - split.
    + intros key' Hne Hin. destruct r as [fetched|e]; cbn; [|done].
      destruct (reconcile _ _). cbn. apply elem_of_difference.
      split; [done|]. by rewrite elem_of_singleton.
    + by intros e ->.
  - split.
    + intros key' Hne Hin. destruct r as [fetched|e]; cbn; [|done].
      apply elem_of_difference. split; [done|]. by rewrite elem_of_singleton.
    + by intros e ->.
Qed.

Lemma NoDup_delete_lookup {A} (l : list A) i x :
  NoDup l → l !! i = Some x → (x ∉ delete i l) ∧ NoDup (delete i l).
Proof.
  intros Hnd Hi. rewrite <- (take_drop_middle l i x Hi) in Hnd.
  rewrite delete_take_drop. apply NoDup_app in Hnd as (Hl & Hdisj & Hr).
  apply NoDup_cons in Hr as [Hx Hr]. split.
  - rewrite elem_of_app. intros [Hin|Hin]; [|done].
    apply (Hdisj x Hin). by left.
  - apply NoDup_app. split; [done|]. split; [|done].
    intros y Hy Hy'. apply (Hdisj y Hy). by right.
Qed.

Lemma exclusive_idle s : exclusive (idle s).
Proof.
  exists []. split; [constructor|]. split; [constructor|].
  intros key Hkey. by apply elem_of_nil in Hkey.
Qed.

Lemma exclusive_step sys sys' : exclusive sys → step sys sys' → exclusive sys'.
Proof.
  intros (keys & Hholds & Hnd & Hin) Hstep. destruct Hstep as [sys|sys|sys n r|sys cs evs calls].
  - destruct (decide (LoadingHistoryRequestKey ∈ requestsInFight (store sys))) as [Hk|Hk].
    { rewrite call_loadHistory_guarded by done. by exists keys. }
    destruct (call_loadHistory_issued sys Hk) as (k & -> & Hres).
    exists (keys ++ [LoadingHistoryRequestKey]). cbn. split; [|split].
    + apply Forall2_app; [done|]. repeat constructor; done.
    + apply NoDup_app. split; [done|]. split; [|apply NoDup_singleton].
      intros key Hkey ->%list_elem_of_singleton. by apply Hk, Hin.
    + intros key [Hkey| ->%list_elem_of_singleton]%elem_of_app.
      * apply elem_of_union_l. by apply Hin.
      * apply elem_of_union_r. by apply elem_of_singleton.
  - destruct (nextBatchGuard (store sys)) as [lastSHA|] eqn:Hg.
    2: { rewrite call_loadNextHistoryBatch_guarded by done. by exists keys. }
    destruct (call_loadNextHistoryBatch_issued sys lastSHA Hg) as (k & -> & Hres).
    apply nextBatchGuard_Some in Hg as (_ & _ & Hk).
    exists (keys ++ ["history/" +:+ lastSHA]). cbn. split; [|split].
    + apply Forall2_app; [done|]. repeat constructor; done.
    + apply NoDup_app. split; [done|]. split; [|apply NoDup_singleton].
      intros key Hkey ->%list_elem_of_singleton. by apply Hk, Hin.
    + intros key [Hkey| ->%list_elem_of_singleton]%elem_of_app.
      * apply elem_of_union_l. by apply Hin.
      * apply elem_of_union_r. by apply elem_of_singleton.
  - unfold settle. destruct (pending sys !! n) as [t|] eqn:Hn; [|by exists keys].
    destruct (Forall2_lookup_l _ _ _ _ _ Hholds Hn) as (key & Hkey & Ht).
    destruct (holds_resume t key r (store sys) Ht) as (s' & -> & Hkeep & _).
    destruct (NoDup_delete_lookup keys n key Hnd Hkey) as [Hgone Hnd'].
    exists (delete n keys). cbn. split; [|split].
    + by apply Forall2_delete.
    + done.
    + intros key' Hkey'. apply Hkeep.
      * by intros ->.
      * apply Hin. by eapply list_elem_of_delete_inv.
  - by exists keys.
Qed.

Lemma exclusive_steps sys sys' : exclusive sys → steps sys sys' → exclusive sys'.
Proof. intros Hex Hsteps. induction Hsteps; eauto using exclusive_step. Qed.

Lemma stuck_step key sys sys' : stuck key sys → step sys sys' → stuck key sys'.
Proof.
  intros (Hin & keys & Hholds & Hkey) Hstep.
  destruct Hstep as [sys|sys|sys n r|sys cs evs calls].
  - destruct (decide (LoadingHistoryRequestKey ∈ requestsInFight (store sys))) as [Hk|Hk].
    { rewrite call_loadHistory_guarded by done. split; [done|]. by exists keys. }
    destruct (call_loadHistory_issued sys Hk) as (k & -> & Hres).
    split; [by apply elem_of_union_l|].
    exists (keys ++ [LoadingHistoryRequestKey]). cbn. split.
    + apply Forall2_app; [done|]. repeat constructor; done.
    + intros [?| ->%list_elem_of_singleton]%elem_of_app; done.
  - destruct (nextBatchGuard (store sys)) as [lastSHA|] eqn:Hg.
    2: { rewrite call_loadNextHistoryBatch_guarded by done.
         split; [done|]. by exists keys. }
    destruct (call_loadNextHistoryBatch_issued sys lastSHA Hg) as (k & -> & Hres).
    apply nextBatchGuard_Some in Hg as (_ & _ & Hk).
    split; [by apply elem_of_union_l|].
    exists (keys ++ ["history/" +:+ lastSHA]). cbn. split.
    + apply Forall2_app; [done|]. repeat constructor; done.
    + intros [?| ->%list_elem_of_singleton]%elem_of_app; done.
  - unfold settle. destruct (pending sys !! n) as [t|] eqn:Hn.
    2: { split; [done|]. by exists keys. }
    destruct (Forall2_lookup_l _ _ _ _ _ Hholds Hn) as (key' & Hkey' & Ht).
    destruct (holds_resume t key' r (store sys) Ht) as (s' & -> & Hkeep & _).
    split.
    + cbn. apply Hkeep; [|done]. intros ->.
      apply Hkey. by eapply list_elem_of_lookup_2.
    + exists (delete n keys). cbn. split; [by apply Forall2_delete|].
      intros Hd. apply Hkey. by eapply list_elem_of_delete_inv.
  - split; [done|]. by exists keys.
Qed.

Lemma stuck_steps key sys sys' : stuck key sys → steps sys sys' → stuck key sys'.
Proof. intros Hst Hsteps. induction Hsteps; eauto using stuck_step. Qed.

(** The key of a call whose fetch is rejected is stuck from then on. *)
Lemma rejected_stuck sys n t key e :
  exclusive sys → pending sys !! n = Some t → holds t key →
  stuck key (settle n (Rejected e) sys).
Proof.
  intros (keys & Hholds & Hnd & Hin) Hn Ht.
  destruct (Forall2_lookup_l _ _ _ _ _ Hholds Hn) as (key' & Hkey' & Ht').
  assert (key' = key) as ->.
  { destruct Ht as [t Ha _|t lastSHA Ha _].
    - by eapply holds_awaiting_HEAD.
    - by eapply holds_awaiting_next. }
  destruct (holds_resume t key (Rejected e) (store sys) Ht) as (s' & Hres & _ & Hsame).
  unfold settle, stuck. rewrite Hn, Hres. cbn.
  destruct (NoDup_delete_lookup keys n key Hnd Hkey') as [Hgone _].
  split.
  - rewrite (Hsame e) by done. apply Hin. by eapply list_elem_of_lookup_2.
  - exists (delete n keys). split; [by apply Forall2_delete|done].
Qed.

(** While a [loadHistory] call is suspended, in whatever execution, a
    further [loadHistory] call changes nothing. *)
Lemma loadHistory_noop_while_pending s0 sys n t :
  steps (idle s0) sys → pending sys !! n = Some t → awaiting t = HEADCall →
  call loadHistory sys = sys.
Proof.
  intros Hreach Hn Hhead.
  destruct (exclusive_steps _ _ (exclusive_idle s0) Hreach) as (keys & Hholds & _ & Hin).
  destruct (Forall2_lookup_l _ _ _ _ _ Hholds Hn) as (key & Hkey & Ht).
  apply call_loadHistory_guarded. rewrite <- (holds_awaiting_HEAD t key Ht Hhead).
  apply Hin. by eapply list_elem_of_lookup_2.
Qed.

(** In whatever execution, a rejected fetch only emits the error: the
    suspended call ends, and the rest of the store, the request keys
    included, is as it was just before. *)
Lemma settle_rejected s0 sys n t e :
  steps (idle s0) sys → pending sys !! n = Some t →
  settle n (Rejected e) sys
  = mkSystem (emit (DidError e) (store sys)) (delete n (pending sys))
      (invocations sys).
Proof.
  intros Hreach Hn.
  destruct (exclusive_steps _ _ (exclusive_idle s0) Hreach) as (keys & Hholds & _).
  destruct (Forall2_lookup_l _ _ _ _ _ Hholds Hn) as (key & _ & Ht).
  unfold settle. rewrite Hn. by destruct Ht as [t _ ->|t lastSHA _ ->].
Qed.

Lemma nextBatchGuard_history_in_flight s :
  LoadingHistoryRequestKey ∈ requestsInFight s → nextBatchGuard s = None.
Proof. intros Hin. unfold nextBatchGuard. by rewrite bool_decide_eq_true_2. Qed.

Lemma nextBatchGuard_batch_in_flight s lastSHA :
  last (_history s) = Some lastSHA →
  "history/" +:+ lastSHA ∈ requestsInFight s →
  nextBatchGuard s = None.
Proof.
  intros Hlast Hin. unfold nextBatchGuard. case_bool_decide; [done|].
  rewrite Hlast. by rewrite bool_decide_eq_true_2.
Qed.

(** C10 (as the code has it). Take any execution from a store on which
    nothing is pending, and a suspended call in it whose Git invocation
    rejects. If the call is a [loadHistory], the key ["history"] is in
    flight in every later state, and every later [loadHistory] and
    [loadNextHistoryBatch] call returns at once, changing nothing and
    invoking nothing. If the call is a [loadNextHistoryBatch] started at
    last SHA [lastSHA], the key ["history/" +:+ lastSHA] is in flight in
    every later state, and every later [loadNextHistoryBatch] call made
    while the history ends in [lastSHA] returns at once. *)
Theorem rejected_request_key_never_removed s0 sys n t e sys' :
  steps (idle s0) sys →
  pending sys !! n = Some t →
  steps (settle n (Rejected e) sys) sys' →
  (awaiting t = HEADCall →
     LoadingHistoryRequestKey ∈ requestsInFight (store sys')
     ∧ call loadHistory sys' = sys'
     ∧ call loadNextHistoryBatch sys' = sys')
  ∧ (∀ lastSHA, awaiting t = nextCall lastSHA →
       "history/" +:+ lastSHA ∈ requestsInFight (store sys')
       ∧ (last (_history (store sys')) = Some lastSHA →
          call loadNextHistoryBatch sys' = sys')).
Proof.
  intros Hreach Hn Hlater.
  pose proof (exclusive_steps _ _ (exclusive_idle s0) Hreach) as Hex.
  destruct Hex as (keys & Hholds & Hnd & Hin).
  destruct (Forall2_lookup_l _ _ _ _ _ Hholds Hn) as (key & Hkey & Ht).
  assert (stuck key sys') as [Hstuck _].
  { eapply stuck_steps; [|done]. eapply rejected_stuck; [|done..]. by exists keys. }
  split.
  - intros Hhead. apply (holds_awaiting_HEAD t key Ht) in Hhead as ->.
    split; [done|]. split.
    + by apply call_loadHistory_guarded.
    + by apply call_loadNextHistoryBatch_guarded, nextBatchGuard_history_in_flight.
  - intros lastSHA Hnext. apply (holds_awaiting_next t key lastSHA Ht) in Hnext as ->.
    split; [done|]. intros Hlast.
    by eapply call_loadNextHistoryBatch_guarded, nextBatchGuard_batch_in_flight.
Qed.

Lemma rejected_request_key_never_removed_witness :
  ∃ t, pending (call loadHistory (idle Examples.fresh)) !! 0%nat = Some t
       ∧ awaiting t = HEADCall
       ∧ let sys' := settle 0 (Rejected Examples.gitFailure)
                       (call loadHistory (idle Examples.fresh)) in
         LoadingHistoryRequestKey ∈ requestsInFight (store sys')
         ∧ call loadHistory sys' = sys'
         ∧ call loadNextHistoryBatch sys' = sys'.
Proof.
  destruct (call_loadHistory_issued (idle Examples.fresh)) as (k & Heq & Hk).
  { cbn. apply not_elem_of_empty. }
  exists (mkTask HEADCall k).
  assert (pending (call loadHistory (idle Examples.fresh)) !! 0%nat
          = Some (mkTask HEADCall k)) as Hn by (by rewrite Heq).
  split; [exact Hn|]. split; [reflexivity|]. cbn zeta.
  destruct (rejected_request_key_never_removed Examples.fresh
              (call loadHistory (idle Examples.fresh)) 0 (mkTask HEADCall k)
              Examples.gitFailure
              (settle 0 (Rejected Examples.gitFailure)
                 (call loadHistory (idle Examples.fresh)))
              (rtc_once _ _ (step_loadHistory _)) Hn (rtc_refl _ _))
    as [Hhistory _].
  exact (Hhistory eq_refl).
Defined.

(** A rejected [loadNextHistoryBatch] does not stop a later
    [loadHistory]: that call checks the key ["history"] only, so it
    goes through and invokes Git. *)
Lemma rejected_next_batch_does_not_guard_loadHistory :
  let sys := call loadNextHistoryBatch (idle Examples.loaded) in
  let failed := settle 0 (Rejected Examples.gitFailure) sys in
  steps (idle Examples.loaded) failed
  ∧ invocations failed = [nextCall "c2"]
  ∧ emitted (store failed) = [DidError Examples.gitFailure]
  ∧ "history/c2" ∈ requestsInFight (store failed)
  ∧ invocations (call loadHistory failed) = [nextCall "c2"; HEADCall]
  ∧ call loadHistory failed ≠ failed.
Proof.
  cbn zeta.
  assert (nextBatchGuard (store (idle Examples.loaded)) = Some "c2") as Hg.
  { apply nextBatchGuard_Some. cbn. by repeat split; try apply not_elem_of_empty. }
  split.
  { eapply rtc_l; [apply step_loadNextHistoryBatch|].
    apply rtc_once, step_settle. }
  destruct (call_loadNextHistoryBatch_issued _ _ Hg) as (k & -> & Hk).
  rewrite (settle_finishing _ _ (mkTask (nextCall "c2") k) _
             (loadNextHistoryBatch_settled "history/c2")); [|done|exact Hk].
  cbn [store pending invocations idle delete list_delete app].
  split; [done|]. split; [done|].
  split. { cbn. apply elem_of_union_r. by apply elem_of_singleton. }
  match goal with |- context [call loadHistory ?x] => set (failed := x) end.
  destruct (call_loadHistory_issued failed) as (k' & -> & _).
  { subst failed. cbn. rewrite elem_of_union, elem_of_singleton.
    intros [Hin|Hin]; [by apply elem_of_empty in Hin|done]. }
  split; [done|]. intros Heq. by apply (f_equal invocations) in Heq.
Qed.

End GitFacts.

(** ** Facts about the repository catalog *)

Module CatalogFacts.
Import Catalog.
#[local] Open Scope list_scope.

Implicit Types (db : Database) (st : Datastore) (r : Repository)
  (p : GitHubRepository).

(** *** Truthiness and keys *)

Lemma truthy_Some k : k ≠ 0 → truthy (Some k) = Some k.
Proof. intros Hk. cbn. by destruct (Z.eqb_spec k 0). Qed.

Lemma truthy_None_iff (n : option Z) : truthy n = None ↔ n = None ∨ n = Some 0.
Proof.
  destruct n as [k|]; cbn; [|by split; [left|]].
  destruct (Z.eqb_spec k 0) as [->|Hk].
  - by split; [right|].
  - split; [done|]. intros [?|?]; by simplify_eq.
Qed.

Lemma keysGenerated_lookup {A} (t : Table A) k v :
  keysGenerated t → rows t !! k = Some v → 0 < k < nextKey t.
Proof. intros [_ Hall] Hk. by apply (Hall k v). Qed.

Lemma keysGenerated_fresh {A} (t : Table A) :
  keysGenerated t → rows t !! nextKey t = None.
Proof.
  intros Hgen. destruct (rows t !! nextKey t) as [v|] eqn:Hk; [|done].
  apply (keysGenerated_lookup _ _ _ Hgen) in Hk. lia.
Qed.

Lemma keysGenerated_empty {A} : keysGenerated (@emptyTable A).
Proof. split; [done|]. apply map_Forall_empty. Qed.

Lemma keysGenerated_add {A} (t : Table A) v :
  keysGenerated t → keysGenerated (add v t).2.
Proof.
  intros [Hpos Hall]. split; cbn; [lia|].
  apply map_Forall_insert_2; [lia|].
  intros k w Hk. specialize (Hall k w Hk). cbn in Hall. lia.
Qed.

Lemma keysGenerated_replace {A} (t : Table A) k v :
  keysGenerated t → is_Some (rows t !! k) →
  keysGenerated (mkTable (<[k := v]> (rows t)) (Z.max (nextKey t) (k + 1))).
Proof.
  intros Hgen [w Hk]. pose proof (keysGenerated_lookup _ _ _ Hgen Hk).
  destruct Hgen as [Hpos Hall]. split; cbn; [lia|].
  apply map_Forall_insert_2; [lia|].
  intros k' w' Hk'. specialize (Hall k' w' Hk'). cbn in Hall. lia.
Qed.

Lemma keysGenerated_update {A} (t : Table A) k f :
  keysGenerated t → keysGenerated (update k f t).
Proof.
  intros [Hpos Hall]. split; [done|]. cbn.
  intros k' w'. rewrite lookup_alter_Some.
  intros [(-> & w & Hw & _)|[_ Hw]]; by eapply Hall.
Qed.

Lemma consistent_empty : consistent emptyDatabase.
Proof.
  repeat split; try done; apply map_Forall_empty.
Qed.

(** *** The upsert, case by case *)

Ltac unfold_update :=
  unfold updateGitHubRepository, transaction, resolveOwner, reads, defined,
    gitHubRepositories_put, repositories_update, owners_add, fatalError,
    mbind, mret, Txn_bind, Txn_ret, get.

(** The local repository already links to a remote repository: its row
    is replaced in place, under the owner it already has. *)
Lemma update_linked st r i p lr g e :
  getID r = Some i → getGitHubRepository r = Some p →
  rows (repositories (database st)) !! i = Some lr →
  gitHubRepositoryID lr = Some g →
  rows (gitHubRepositories (database st)) !! g = Some e →
  is_Some (rows (owners (database st)) !! ownerID e) →
  i ≠ 0 → g ≠ 0 →
  updateGitHubRepository r st
  = (inr tt,
     mkDatastore
       (mkDatabase
          (update i (relink g) (repositories (database st)))
          (put (Some g) (info p (ownerID e)) (gitHubRepositories (database st))).2
          (owners (database st)))
       (transactions st ++ [ReadWrite])).
Proof.
  intros Hid Hp Hlr Hg He [o Ho] Hi0 Hg0. unfold_update.
  rewrite Hid, truthy_Some, Hp by done. cbn.
  rewrite Hlr. cbn. rewrite Hg, truthy_Some by done. cbn.
  rewrite He. cbn. rewrite Ho. reflexivity.
Qed.

(** The local repository links to nothing yet and an owner with the
    login, up to case, is stored: a new remote repository references
    that owner. *)
Lemma update_unlinked_owner_found st r i p lr o :
  getID r = Some i → getGitHubRepository r = Some p →
  rows (repositories (database st)) !! i = Some lr →
  truthy (gitHubRepositoryID lr) = None →
  firstOwnerIgnoreCase (getLogin (getOwner p)) (owners (database st)) = Some o →
  i ≠ 0 →
  updateGitHubRepository r st
  = (inr tt,
     mkDatastore
       (mkDatabase
          (update i (relink (nextKey (gitHubRepositories (database st))))
             (repositories (database st)))
          (add (info p o.1) (gitHubRepositories (database st))).2
          (owners (database st)))
       (transactions st ++ [ReadWrite])).
Proof.
  intros Hid Hp Hlr Hg Ho Hi0. unfold_update.
  rewrite Hid, truthy_Some, Hp by done. cbn.
  rewrite Hlr. cbn. rewrite Hg. cbn. rewrite Ho. reflexivity.
Qed.

(** The local repository links to nothing yet and no owner with the
    login, up to case, is stored: a new owner and a new remote
    repository are added. *)
Lemma update_unlinked_owner_new st r i p lr :
  getID r = Some i → getGitHubRepository r = Some p →
  rows (repositories (database st)) !! i = Some lr →
  truthy (gitHubRepositoryID lr) = None →
  firstOwnerIgnoreCase (getLogin (getOwner p)) (owners (database st)) = None →
  i ≠ 0 →
  updateGitHubRepository r st
  = (inr tt,
     mkDatastore
       (mkDatabase
          (update i (relink (nextKey (gitHubRepositories (database st))))
             (repositories (database st)))
          (add (info p (nextKey (owners (database st))))
             (gitHubRepositories (database st))).2
          (add (mkDatabaseOwner (getLogin (getOwner p)) (getEndpoint (getOwner p)))
             (owners (database st))).2)
       (transactions st ++ [ReadWrite])).
Proof.
  intros Hid Hp Hlr Hg Ho Hi0. unfold_update.
  rewrite Hid, truthy_Some, Hp by done. cbn.
  rewrite Hlr. cbn. rewrite Hg. cbn. rewrite Ho. reflexivity.
Qed.

(** *** Owner lookup *)

Lemma firstOwnerIgnoreCase_Some l (t : Table DatabaseOwner) o :
  firstOwnerIgnoreCase l t = Some o →
  rows t !! o.1 = Some o.2 ∧ equalsIgnoreCase (login o.2) l = true.
Proof.
  unfold firstOwnerIgnoreCase. intros [rest Hsorted]%head_Some.
  assert (o ∈ filter (loginMatches l) (map_to_list (rows t))) as Hin.
  { rewrite <- (merge_sort_Permutation loginIndexLe), Hsorted. by left. }
  apply list_elem_of_filter in Hin as [Hmatch Hin]. split.
  - apply elem_of_map_to_list. by destruct o.
  - unfold loginMatches in Hmatch. by apply Is_true_true.
Qed.

Lemma firstOwnerIgnoreCase_None l (t : Table DatabaseOwner) k o :
  firstOwnerIgnoreCase l t = None → rows t !! k = Some o →
  equalsIgnoreCase (login o) l = false.
Proof.
  unfold firstOwnerIgnoreCase. intros Hnone%head_None Hk.
  destruct (equalsIgnoreCase (login o) l) eqn:Hmatch; [|done].
  assert ((k, o) ∈ filter (loginMatches l) (map_to_list (rows t))) as Hin.
  { apply list_elem_of_filter. split.
    - unfold loginMatches. cbn. by rewrite Hmatch.
    - by apply elem_of_map_to_list. }
  rewrite <- (merge_sort_Permutation loginIndexLe), Hnone in Hin.
  by apply elem_of_nil in Hin.
Qed.

(** The lookup depends on the login up to case only. *)
Lemma firstOwnerIgnoreCase_fold l1 l2 (t : Table DatabaseOwner) :
  equalsIgnoreCase l1 l2 = true →
  firstOwnerIgnoreCase l1 t = firstOwnerIgnoreCase l2 t.
Proof.
  intros Heq%String.eqb_eq. unfold firstOwnerIgnoreCase. do 2 f_equal.
  apply list_filter_iff. intros x. unfold loginMatches, equalsIgnoreCase.
  by rewrite Heq.
Qed.

(** Right after an owner was added because nothing matched its login,
    the lookup finds that owner. *)
Lemma firstOwnerIgnoreCase_added l1 l2 endpoint (t : Table DatabaseOwner) :
  keysGenerated t →
  firstOwnerIgnoreCase l1 t = None →
  equalsIgnoreCase l1 l2 = true →
  firstOwnerIgnoreCase l2 (add (mkDatabaseOwner l1 endpoint) t).2
  = Some (nextKey t, mkDatabaseOwner l1 endpoint).
Proof.
  intros Hgen Hnone Heq.
  rewrite <- (firstOwnerIgnoreCase_fold l1 l2) by done.
  unfold firstOwnerIgnoreCase in *. cbn.
  apply head_None in Hnone.
  assert (filter (loginMatches l1) (map_to_list (rows t)) = []) as Hold.
  { apply Permutation_nil_r. by rewrite <- Hnone, merge_sort_Permutation. }
  assert (merge_sort loginIndexLe
            (filter (loginMatches l1)
               (map_to_list (<[nextKey t := mkDatabaseOwner l1 endpoint]> (rows t))))
          = [(nextKey t, mkDatabaseOwner l1 endpoint)]) as ->; [|done].
  apply Permutation_singleton_r.
  rewrite merge_sort_Permutation.
  rewrite map_to_list_insert by by apply keysGenerated_fresh.
  rewrite filter_cons_True.
  - by rewrite Hold.
  - unfold loginMatches, equalsIgnoreCase. cbn. by rewrite String.eqb_refl.
Qed.

(** *** The upsert on a consistent database *)

Lemma consistent_link db i lr g :
  consistent db → rows (repositories db) !! i = Some lr →
  gitHubRepositoryID lr = Some g →
  ∃ e, rows (gitHubRepositories db) !! g = Some e
       ∧ is_Some (rows (owners db) !! ownerID e) ∧ g ≠ 0.
Proof.
  intros (_ & Hgh & _ & Hlinks & Howners) Hlr Hg.
  destruct (Hlinks i lr Hlr g Hg) as [e He]. exists e.
  split; [done|]. split; [by apply (Howners g e)|].
  pose proof (keysGenerated_lookup _ _ _ Hgh He). lia.
Qed.

Lemma consistent_relinked db i g (gh : Table DatabaseGitHubRepository)
    (os : Table DatabaseOwner) :
  consistent db →
  keysGenerated gh → keysGenerated os →
  is_Some (rows gh !! g) →
  (∀ k, is_Some (rows (gitHubRepositories db) !! k) → is_Some (rows gh !! k)) →
  map_Forall (λ _ e, is_Some (rows os !! ownerID e)) (rows gh) →
  consistent (mkDatabase (update i (relink g) (repositories db)) gh os).
Proof.
  intros (Hrepos & _ & _ & Hlinks & _) Hgh Hos Hg Hkeep Howners.
  split; [by apply keysGenerated_update|]. do 2 (split; [done|]).
  split; [|done]. cbn. intros k lr'. rewrite lookup_alter_Some.
  intros [(-> & lr & Hlr & ->)|[_ Hlr]] g' Hg'.
  - cbn in Hg'. by simplify_eq.
  - by eapply Hkeep, Hlinks.
Qed.

Lemma update_spec st r i p lr :
  consistent (database st) →
  getID r = Some i → getGitHubRepository r = Some p →
  rows (repositories (database st)) !! i = Some lr →
  ∃ db' g oid,
    updateGitHubRepository r st
    = (inr tt, mkDatastore db' (transactions st ++ [ReadWrite]))
    ∧ consistent db'
    ∧ repositories db' = update i (relink g) (repositories (database st))
    ∧ rows (gitHubRepositories db')
      = <[g := info p oid]> (rows (gitHubRepositories (database st)))
    ∧ is_Some (rows (owners db') !! oid)
    ∧ (∀ g0, gitHubRepositoryID lr = Some g0 →
         g = g0 ∧ ownerOf (database st) g0 = Some oid
         ∧ owners db' = owners (database st))
    ∧ (gitHubRepositoryID lr = None →
         g = nextKey (gitHubRepositories (database st))
         ∧ match firstOwnerIgnoreCase (getLogin (getOwner p))
                   (owners (database st)) with
           | Some o => oid = o.1 ∧ owners db' = owners (database st)
           | None =>
               oid = nextKey (owners (database st))
               ∧ owners db'
                 = (add (mkDatabaseOwner (getLogin (getOwner p))
                           (getEndpoint (getOwner p)))
                      (owners (database st))).2
           end).
Proof.
  intros Hcons Hid Hp Hlr.
  pose proof Hcons as (Hrepos & Hgh & Hos & Hlinks & Howners).
  assert (i ≠ 0) as Hi0.
  { pose proof (keysGenerated_lookup _ _ _ Hrepos Hlr). lia. }
  destruct (gitHubRepositoryID lr) as [g0|] eqn:Hg0.
  - destruct (consistent_link _ _ _ _ Hcons Hlr Hg0) as (e & He & Ho & Hne).
    eexists _, g0, (ownerID e). split; [by eapply update_linked|].
    split; [|split; [done|split; [done|split; [done|split]]]].
    + cbn. apply consistent_relinked; try done.
      * by apply keysGenerated_replace.
      * cbn. by rewrite lookup_insert_eq.
      * cbn. intros k Hk. rewrite lookup_insert_is_Some. destruct (decide (g0 = k)); auto.
      * cbn. apply map_Forall_insert_2; [done|]. done.
    + intros ? [= <-]. unfold ownerOf. by rewrite He.
    + done.
  - destruct (firstOwnerIgnoreCase (getLogin (getOwner p)) (owners (database st)))
      as [o|] eqn:Hfound.
    + destruct (firstOwnerIgnoreCase_Some _ _ _ Hfound) as [Ho _].
      eexists _, _, o.1. split.
      { eapply update_unlinked_owner_found; try done. by rewrite Hg0. }
      split; [|split; [done|split; [done|split; [by cbn; eauto|split; [done|]]]]].
      * cbn. apply consistent_relinked; try done.
        -- by apply keysGenerated_add.
        -- cbn. by rewrite lookup_insert_eq.
        -- cbn. intros k Hk. rewrite lookup_insert_is_Some.
           destruct (decide (nextKey (gitHubRepositories (database st)) = k)); auto.
        -- cbn. apply map_Forall_insert_2; [by cbn; eauto|done].
      * intros _. done.
    + eexists _, _, (nextKey (owners (database st))). split.
      { eapply update_unlinked_owner_new; try done. by rewrite Hg0. }
      split; [|split; [done|split; [done|split; [|split; [done|]]]]].
      * cbn. apply consistent_relinked; try done.
        -- by apply keysGenerated_add.
        -- by apply keysGenerated_add.
        -- cbn. by rewrite lookup_insert_eq.
        -- cbn. intros k Hk. rewrite lookup_insert_is_Some.
           destruct (decide (nextKey (gitHubRepositories (database st)) = k)); auto.
        -- cbn. apply map_Forall_insert_2.
           { cbn. by rewrite lookup_insert_eq. }
           intros k e He. cbn. rewrite lookup_insert_is_Some.
           destruct (decide (nextKey (owners (database st)) = ownerID e)); [auto|].
           right. split; [done|]. by apply (Howners k e).
      * cbn. by rewrite lookup_insert_eq.
      * intros _. done.
Qed.

Lemma update_missing_row st r i p :
  getID r = Some i → getGitHubRepository r = Some p → i ≠ 0 →
  rows (repositories (database st)) !! i = None →
  updateGitHubRepository r st
  = (inl TypeError, mkDatastore (database st) (transactions st ++ [ReadWrite])).
Proof.
  intros Hid Hp Hi0 Hlr. unfold_update.
  rewrite Hid, truthy_Some, Hp by done. cbn. rewrite Hlr. reflexivity.
Qed.

Lemma update_fatal st r :
  truthy (getID r) = None ∨ getGitHubRepository r = None →
  ∃ msg, updateGitHubRepository r st = (inl (FatalError msg), st).
Proof.
  unfold updateGitHubRepository, fatal.
  destruct (truthy (getID r)); [|by eauto].
  destruct (getGitHubRepository r); [|by eauto].
  by intros [|].
Qed.

Lemma update_consistent st r :
  consistent (database st) →
  consistent (database (updateGitHubRepository r st).2).
Proof.
  intros Hcons.
  destruct (truthy (getID r)) as [i|] eqn:Hid.
  2: { destruct (update_fatal st r) as [msg ->]; auto. }
  destruct (getGitHubRepository r) as [p|] eqn:Hp.
  2: { destruct (update_fatal st r) as [msg ->]; auto. }
  assert (getID r = Some i ∧ i ≠ 0) as [Hid' Hi0].
  { destruct (getID r) as [k|]; [|done]. cbn in Hid.
    destruct (Z.eqb_spec k 0); by simplify_eq. }
  destruct (rows (repositories (database st)) !! i) as [lr|] eqn:Hlr.
  - destruct (update_spec st r i p lr) as (db' & g & oid & -> & Hcons' & _); done.
  - by rewrite (update_missing_row st r i p).
Qed.

(** *** Listing *)

Lemma inflate_consistent db k lr :
  consistent db → rows (repositories db) !! k = Some lr →
  inflate (k, lr) db = inr (inflated db (k, lr), db).
Proof.
  intros Hcons Hlr. unfold inflate, inflated. cbn.
  destruct (truthy (gitHubRepositoryID lr)) as [g|] eqn:Hg; [|done].
  assert (gitHubRepositoryID lr = Some g) as Hg'.
  { destruct (gitHubRepositoryID lr) as [g'|]; [|done]. cbn in Hg.
    by destruct (g' =? 0); simplify_eq. }
  destruct (consistent_link _ _ _ _ Hcons Hlr Hg') as (e & He & [o Ho] & _).
  unfold mbind, mret, Txn_bind, Txn_ret, reads, defined, get. cbn.
  rewrite He. cbn. rewrite Ho. reflexivity.
Qed.

Lemma mapM_inflate_consistent db (l : list (Z * DatabaseRepository)) :
  consistent db →
  (∀ k lr, (k, lr) ∈ l → rows (repositories db) !! k = Some lr) →
  mapM inflate l db = inr (inflated db <$> l, db).
Proof.
  intros Hcons. induction l as [|[k lr] l IH]; intros Hl; [done|].
  cbn. unfold mbind at 1, Txn_bind at 1.
  rewrite inflate_consistent by (done || apply Hl; by left).
  unfold mbind at 1, Txn_bind at 1.
  rewrite IH; [done|]. intros k' lr' Hin. apply Hl. by right.
Qed.

Lemma elem_of_toArray {A} (t : Table A) k v :
  (k, v) ∈ toArray t ↔ rows t !! k = Some v.
Proof.
  unfold toArray. rewrite merge_sort_Permutation. apply elem_of_map_to_list.
Qed.

Lemma getRepositories_consistent st :
  consistent (database st) →
  getRepositories st
  = (inr (inflated (database st) <$> toArray (repositories (database st))),
     mkDatastore (database st) (transactions st ++ [ReadOnly])).
Proof.
  intros Hcons. unfold getRepositories, transaction.
  unfold mbind at 1, Txn_bind at 1, reads.
  rewrite mapM_inflate_consistent; [done..|].
  intros k lr. apply elem_of_toArray.
Qed.

(** Every stored local repository is listed, under its key. *)
Lemma getRepositories_lists st k lr :
  consistent (database st) →
  rows (repositories (database st)) !! k = Some lr →
  ∃ entries, (getRepositories st).1 = inr entries
             ∧ inflated (database st) (k, lr) ∈ entries.
Proof.
  intros Hcons Hlr. rewrite getRepositories_consistent by done.
  eexists. split; [done|]. apply list_elem_of_fmap. exists (k, lr).
  split; [done|]. by apply elem_of_toArray.
Qed.

(** *** Adding *)

Lemma consistent_added db path :
  consistent db →
  consistent (mkDatabase (add (mkDatabaseRepository path None) (repositories db)).2
                (gitHubRepositories db) (owners db)).
Proof.
  intros (Hrepos & Hgh & Hos & Hlinks & Howners).
  split; [by apply keysGenerated_add|]. do 2 (split; [done|]).
  split; [|done]. cbn. apply map_Forall_insert_2; [done|]. done.
Qed.

Lemma addRepository_spec st x :
  consistent (database st) →
  let i := nextKey (repositories (database st)) in
  ∃ st' lr,
    addRepository x st = (inr (withID x i), st')
    ∧ consistent (database st')
    ∧ rows (repositories (database st')) !! i = Some lr
    ∧ path lr = getPath x
    ∧ (getGitHubRepository x = None →
         gitHubRepositoryID lr = None
         ∧ owners (database st') = owners (database st)
         ∧ transactions st' = transactions st ++ [ReadWrite])
    ∧ (∀ p, getGitHubRepository x = Some p →
         ∃ g oid,
           gitHubRepositoryID lr = Some g
           ∧ rows (gitHubRepositories (database st')) !! g = Some (info p oid)
           ∧ transactions st' = transactions st ++ [ReadWrite; ReadWrite]
           ∧ match firstOwnerIgnoreCase (getLogin (getOwner p))
                     (owners (database st)) with
             | Some o => oid = o.1 ∧ owners (database st') = owners (database st)
             | None =>
                 oid = nextKey (owners (database st))
                 ∧ owners (database st')
                   = (add (mkDatabaseOwner (getLogin (getOwner p))
                             (getEndpoint (getOwner p)))
                        (owners (database st))).2
             end).
Proof.
  intros Hcons i. pose proof (consistent_added _ (getPath x) Hcons) as Hcons1.
  pose proof Hcons as (Hrepos & _).
  unfold addRepository. unfold mbind at 1, Method_bind at 1.
  unfold transaction at 1, repositories_add. cbn.
  set (st1 := mkDatastore _ (transactions st ++ [ReadWrite])).
  destruct (getGitHubRepository x) as [p|] eqn:Hp.
  - destruct (update_spec st1 (withID x i) i p (mkDatabaseRepository (getPath x) None))
      as (db' & g & oid & Hupd & Hcons' & Hrepos' & Hgh' & _ & _ & Hnew);
      [done..| |].
    { cbn. by rewrite lookup_insert_eq. }
    unfold mbind, Method_bind. fold i. rewrite Hupd. cbn.
    eexists _, (relink g (mkDatabaseRepository (getPath x) None)).
    split; [done|]. split; [done|]. split.
    { cbn. rewrite Hrepos'. cbn. rewrite lookup_alter_eq. cbn.
      by rewrite lookup_insert_eq. }
    split; [done|]. split; [done|]. intros ? [= <-].
    exists g, oid. split; [done|]. split.
    { cbn. rewrite Hgh'. by rewrite lookup_insert_eq. }
    split. { cbn. by rewrite <- app_assoc. }
    destruct (Hnew eq_refl) as [_ Howner]. exact Howner.
  - unfold mbind, Method_bind, mret, Method_ret. cbn.
    eexists _, (mkDatabaseRepository (getPath x) None).
    split; [done|]. split; [done|]. split.
    { cbn. by rewrite lookup_insert_eq. }
    split; [done|]. split; [done|]. done.
Qed.

Lemma addRepository_consistent st x :
  consistent (database st) → consistent (database (addRepository x st).2).
Proof.
  intros Hcons. by destruct (addRepository_spec st x Hcons) as (st' & lr & -> & ? & _).
Qed.

(** *** The datastores the store can be in *)

Lemma reachable_consistent st : reachable st → consistent (database st).
Proof.
  induction 1 as [log|st _ IH|st x _ IH|st r _ IH].
  - exact consistent_empty.
  - by rewrite getRepositories_consistent.
  - by apply addRepository_consistent.
  - by apply update_consistent.
Qed.

Lemma equalsIgnoreCase_sym a b : equalsIgnoreCase a b = equalsIgnoreCase b a.
Proof. apply String.eqb_sym. Qed.

Lemma ownersDistinct_grow (t t' : Table DatabaseOwner) :
  keysGenerated t → ownersDistinct t → ownersGrow t t' → ownersDistinct t'.
Proof.
  intros Hgen Hdist [->|(l & e & Hnone & ->)]; [done|].
  pose proof (keysGenerated_fresh t Hgen) as Hfresh.
  intros k1 k2 o1 o2. cbn. rewrite !lookup_insert_Some.
  intros [[<- <-]|[Hk1 Ho1]] [[<- <-]|[Hk2 Ho2]] Hmatch; try done.
  - change (equalsIgnoreCase l (login o2) = true) in Hmatch.
    rewrite equalsIgnoreCase_sym in Hmatch.
    by rewrite (firstOwnerIgnoreCase_None _ _ _ _ Hnone Ho2) in Hmatch.
  - change (equalsIgnoreCase (login o1) l = true) in Hmatch.
    by rewrite (firstOwnerIgnoreCase_None _ _ _ _ Hnone Ho1) in Hmatch.
  - by eapply Hdist.
Qed.

Lemma update_owners_grow st r :
  consistent (database st) →
  ownersGrow (owners (database st))
    (owners (database (updateGitHubRepository r st).2)).
Proof.
  intros Hcons.
  destruct (truthy (getID r)) as [i|] eqn:Hid.
  2: { destruct (update_fatal st r) as [msg ->]; [auto|by left]. }
  destruct (getGitHubRepository r) as [p|] eqn:Hp.
  2: { destruct (update_fatal st r) as [msg ->]; [auto|by left]. }
  assert (getID r = Some i ∧ i ≠ 0) as [Hid' Hi0].
  { destruct (getID r) as [k|]; [|done]. cbn in Hid.
    destruct (Z.eqb_spec k 0); by simplify_eq. }
  destruct (rows (repositories (database st)) !! i) as [lr|] eqn:Hlr.
  2: { rewrite (update_missing_row st r i p) by done. by left. }
  destruct (update_spec st r i p lr)
    as (db' & g & oid & -> & _ & _ & _ & _ & Hlinked & Hunlinked); [done..|].
  cbn. destruct (gitHubRepositoryID lr) as [g0|].
  - destruct (Hlinked g0 eq_refl) as (_ & _ & ->). by left.
  - destruct (Hunlinked eq_refl) as [_ Howner].
    destruct (firstOwnerIgnoreCase _ _) eqn:Hfound.
    + destruct Howner as [_ ->]. by left.
    + destruct Howner as [_ ->]. right. eauto.
Qed.

Lemma addRepository_owners_grow st x :
  consistent (database st) →
  ownersGrow (owners (database st)) (owners (database (addRepository x st).2)).
Proof.
  intros Hcons.
  destruct (addRepository_spec st x Hcons)
    as (st' & lr & -> & _ & _ & _ & Hbare & Hremote).
  cbn. destruct (getGitHubRepository x) as [p|].
  - destruct (Hremote p eq_refl) as (g & oid & _ & _ & _ & Howner).
    destruct (firstOwnerIgnoreCase _ _) eqn:Hfound.
    + destruct Howner as [_ ->]. by left.
    + destruct Howner as [_ ->]. right. eauto.
  - destruct (Hbare eq_refl) as (_ & -> & _). by left.
Qed.

(** The store never holds two owners with the same login up to case. *)
Lemma reachable_ownersDistinct st :
  reachable st → ownersDistinct (owners (database st)).
Proof.
  induction 1 as [log|st Hst IH|st x Hst IH|st r Hst IH].
  - intros k1 k2 o1 o2 Ho1. cbn in Ho1. by rewrite lookup_empty in Ho1.
  - by rewrite getRepositories_consistent by by apply reachable_consistent.
  - pose proof (reachable_consistent st Hst) as Hcons.
    eapply ownersDistinct_grow; [apply Hcons|done|].
    by apply addRepository_owners_grow.
  - pose proof (reachable_consistent st Hst) as Hcons.
    eapply ownersDistinct_grow; [apply Hcons|done|].
    by apply update_owners_grow.
Qed.

(** Without the invariant the third fatal error of the upsert, raised
    inside the transaction, is not excluded: a local row that links to a
    remote repository that is not stored makes a well-formed call fail
    fatally. No method of the store writes such a row. *)
Lemma dangling_link_is_fatal :
  let db := mkDatabase
              (mkTable {[1 := mkDatabaseRepository "/work/desktop" (Some 7)]} 2)
              emptyTable emptyTable in
  updateGitHubRepository
    (mkRepository "/work/desktop" (Some Examples.desktop) (Some 1))
    (mkDatastore db [])
  = (inl (FatalError "Couldn't look up an existing GitHub repository."),
     mkDatastore db [ReadWrite]).
Proof. reflexivity. Qed.

(** *** Contract errors *)

(** C9. On every datastore the store can be in,
    [updateGitHubRepository] fails with a fatal error exactly when the
    repository it is given has no assigned identifier (the identifier is
    absent, or is the falsy [0] that the datastore never assigns) or
    carries no remote repository; then the datastore is left as it was,
    with no transaction opened. In every other case exactly one
    transaction is opened. *)
Theorem updateGitHubRepository_fatal_iff st r :
  reachable st →
  let violated :=
    getID r = None ∨ getID r = Some 0 ∨ getGitHubRepository r = None in
  ((∃ msg, (updateGitHubRepository r st).1 = inl (FatalError msg)) ↔ violated)
  ∧ (violated → (updateGitHubRepository r st).2 = st)
  ∧ (¬ violated →
     transactions (updateGitHubRepository r st).2 = transactions st ++ [ReadWrite]).
Proof.
  intros Hcons%reachable_consistent violated.
  assert (violated ↔ truthy (getID r) = None ∨ getGitHubRepository r = None) as Hv.
  { unfold violated. rewrite truthy_None_iff. tauto. }
  assert (¬ violated →
          (¬ ∃ msg, (updateGitHubRepository r st).1 = inl (FatalError msg))
          ∧ transactions (updateGitHubRepository r st).2
            = transactions st ++ [ReadWrite]) as Hok.
  { intros Hnot.
    destruct (getID r) as [i|] eqn:Hid; [|by destruct Hnot; left].
    destruct (decide (i = 0)) as [->|Hi0]; [by destruct Hnot; right; left|].
    destruct (getGitHubRepository r) as [p|] eqn:Hp;
      [|by destruct Hnot; right; right].
    destruct (rows (repositories (database st)) !! i) as [lr|] eqn:Hlr.
    - destruct (update_spec st r i p lr) as (db' & g & oid & -> & _); [done..|].
      split; [|done]. by intros [msg Hmsg].
    - rewrite (update_missing_row st r i p) by done.
      split; [|done]. by intros [msg Hmsg]. }
  split; [|split].
  - split.
    + intros Hfatal. destruct (decide violated) as [|Hnot]; [done|].
      by destruct (Hok Hnot) as [[] _].
    + intros Hviolated%Hv. destruct (update_fatal st r Hviolated) as [msg ->].
      by exists msg.
  - intros Hviolated%Hv. by destruct (update_fatal st r Hviolated) as [msg ->].
  - intros Hnot. by apply Hok.
Qed.

Lemma updateGitHubRepository_fatal_iff_witness :
  let st := Examples.emptyStore in
  let r := Examples.desktopClone in
  let violated :=
    getID r = None ∨ getID r = Some 0 ∨ getGitHubRepository r = None in
  ((∃ msg, (updateGitHubRepository r st).1 = inl (FatalError msg)) ↔ violated)
  ∧ (violated → (updateGitHubRepository r st).2 = st)
  ∧ (¬ violated →
     transactions (updateGitHubRepository r st).2 = transactions st ++ [ReadWrite]).
Proof.
  apply (updateGitHubRepository_fatal_iff Examples.emptyStore Examples.desktopClone).
  exact (reachable_empty []).
Defined.

(** *** Adding, then listing *)

(** Case folding makes [equalsIgnoreCase] an equivalence. *)
Lemma equalsIgnoreCase_refl l : equalsIgnoreCase l l = true.
Proof. apply String.eqb_refl. Qed.

(** C5 (as the code has it). After [addRepository x], the listing has an
    entry with [x]'s path and the identifier assigned at insert. If [x]
    carried a remote repository, the entry's name, visibility, fork
    flag and HTML URL are those of [x], and its owner is the stored
    owner that the upsert resolved: the owner already stored under
    [x]'s owner login up to case, with the login and endpoint it was
    stored with, or else [x]'s owner itself. *)
Theorem addRepository_then_list st x :
  reachable st →
  ∃ i st' entries entry,
    addRepository x st = (inr (withID x i), st')
    ∧ (getRepositories st').1 = inr entries
    ∧ entry ∈ entries
    ∧ getPath entry = getPath x
    ∧ getID entry = Some i
    ∧ match getGitHubRepository x with
      | None => getGitHubRepository entry = None
      | Some p =>
          ∃ q, getGitHubRepository entry = Some q
               ∧ getName q = getName p
               ∧ getPrivate q = getPrivate p
               ∧ getFork q = getFork p
               ∧ getHTMLURL q = getHTMLURL p
               ∧ equalsIgnoreCase (getLogin (getOwner q)) (getLogin (getOwner p)) = true
               ∧ getOwner q
                 = match firstOwnerIgnoreCase (getLogin (getOwner p))
                           (owners (database st)) with
                   | Some o => mkOwner (login o.2) (endpoint o.2)
                   | None => getOwner p
                   end
      end.
Proof.
  intros Hcons%reachable_consistent.
  destruct (addRepository_spec st x Hcons)
    as (st' & lr & Hadd & Hcons' & Hlr & Hpath & Hbare & Hremote).
  destruct (getRepositories_lists st' _ lr Hcons' Hlr) as (entries & Hlist & Hin).
  eexists _, st', entries, _. split; [done|]. split; [done|]. split; [done|].
  split; [done|]. split; [done|]. cbn.
  destruct (getGitHubRepository x) as [p|] eqn:Hp.
  - destruct (Hremote p eq_refl) as (g & oid & Hg & Hrow & _ & Howner).
    destruct (consistent_link _ _ _ _ Hcons' Hlr Hg) as (e & He & [o Ho] & Hg0).
    rewrite Hrow in He. injection He as <-. cbn in Ho.
    rewrite Hg, truthy_Some by done. cbn. rewrite Hrow. cbn. rewrite Ho. cbn.
    eexists. split; [done|]. cbn. do 4 (split; [done|]).
    destruct (firstOwnerIgnoreCase _ _) as [o'|] eqn:Hfound.
    + destruct Howner as [-> Hsame]. rewrite Hsame in Ho.
      destruct (firstOwnerIgnoreCase_Some _ _ _ Hfound) as [Ho' Hmatch].
      rewrite Ho' in Ho. injection Ho as <-. done.
    + destruct Howner as [-> Hadded]. rewrite Hadded in Ho. cbn in Ho.
      rewrite lookup_insert_eq in Ho. injection Ho as <-. cbn.
      split; [apply equalsIgnoreCase_refl|]. by destruct (getOwner p).
  - destruct (Hbare eq_refl) as [Hnone _]. by rewrite Hnone.
Qed.

Lemma addRepository_then_list_witness :
  ∃ i st' entries entry,
    addRepository Examples.desktopClone Examples.emptyStore
    = (inr (withID Examples.desktopClone i), st')
    ∧ (getRepositories st').1 = inr entries
    ∧ entry ∈ entries
    ∧ getPath entry = getPath Examples.desktopClone
    ∧ getID entry = Some i
    ∧ match getGitHubRepository Examples.desktopClone with
      | None => getGitHubRepository entry = None
      | Some p =>
          ∃ q, getGitHubRepository entry = Some q
               ∧ getName q = getName p
               ∧ getPrivate q = getPrivate p
               ∧ getFork q = getFork p
               ∧ getHTMLURL q = getHTMLURL p
               ∧ equalsIgnoreCase (getLogin (getOwner q)) (getLogin (getOwner p)) = true
               ∧ getOwner q
                 = match firstOwnerIgnoreCase (getLogin (getOwner p))
                           (owners (database Examples.emptyStore)) with
                   | Some o => mkOwner (login o.2) (endpoint o.2)
                   | None => getOwner p
                   end
      end.
Proof.
  apply (addRepository_then_list Examples.emptyStore Examples.desktopClone).
  exact (reachable_empty []).
Defined.

(** When an owner is already stored under a login that differs in case
    only, the listed entry carries the stored login, not the one that
    was added: the listed remote fields are not those of the input. *)
Lemma listed_owner_is_the_stored_one :
  let st1 := (addRepository Examples.desktopClone Examples.emptyStore).2 in
  let st2 := (addRepository Examples.dotfilesClone st1).2 in
  reachable st2
  ∧ ∃ entries,
      (getRepositories st2).1 = inr entries
      ∧ ∀ entry, entry ∈ entries →
          getPath entry = getPath Examples.dotfilesClone →
          getGitHubRepository entry ≠ getGitHubRepository Examples.dotfilesClone
          ∧ (getLogin ∘ getOwner) <$> getGitHubRepository entry = Some "Alice".
Proof.
  cbn zeta. split.
  { do 2 apply reachable_addRepository. apply reachable_empty. }
  eexists. split; [vm_compute; reflexivity|].
  intros entry Hin Hpath.
  apply list_elem_of_In in Hin. cbn in Hin.
  destruct Hin as [<-|[<-|[]]]; [done|]. by split.
Qed.

(** *** Owner reuse *)

(** C4. Take two local repositories that link to no remote repository
    yet, and upsert one remote repository on each, in sequence, whose
    owners have the same login up to case. Both upserts succeed, the two
    remote repository rows are distinct and reference the same stored
    owner, whose login is the given ones up to case; the second upsert
    adds no owner, and no other stored owner has that login up to case:
    the owner was looked up by login alone, up to case, whatever the
    endpoints. *)
Theorem owner_reused_across_repositories st r1 r2 i1 i2 p1 p2 lr1 lr2 :
  reachable st →
  getID r1 = Some i1 → getID r2 = Some i2 → i1 ≠ i2 →
  getGitHubRepository r1 = Some p1 → getGitHubRepository r2 = Some p2 →
  rows (repositories (database st)) !! i1 = Some lr1 →
  rows (repositories (database st)) !! i2 = Some lr2 →
  gitHubRepositoryID lr1 = None → gitHubRepositoryID lr2 = None →
  equalsIgnoreCase (getLogin (getOwner p1)) (getLogin (getOwner p2)) = true →
  ∃ st1 st2 g1 g2 oid o,
    updateGitHubRepository r1 st = (inr tt, st1)
    ∧ updateGitHubRepository r2 st1 = (inr tt, st2)
    ∧ linkOf (database st2) i1 = Some g1
    ∧ linkOf (database st2) i2 = Some g2
    ∧ g1 ≠ g2
    ∧ ownerOf (database st2) g1 = Some oid
    ∧ ownerOf (database st2) g2 = Some oid
    ∧ rows (owners (database st2)) !! oid = Some o
    ∧ equalsIgnoreCase (login o) (getLogin (getOwner p1)) = true
    ∧ equalsIgnoreCase (login o) (getLogin (getOwner p2)) = true
    ∧ owners (database st2) = owners (database st1)
    ∧ ∀ k o', rows (owners (database st2)) !! k = Some o' →
              equalsIgnoreCase (login o') (getLogin (getOwner p1)) = true →
              k = oid.
Proof.
  intros Hreach Hid1 Hid2 Hne Hp1 Hp2 Hlr1 Hlr2 Hun1 Hun2 Hlogin.
  pose proof (reachable_consistent st Hreach) as Hcons.
  pose proof (reachable_ownersDistinct _
                (reachable_updateGitHubRepository _ r2
                   (reachable_updateGitHubRepository _ r1 Hreach))) as Hdistinct.
  destruct (update_spec st r1 i1 p1 lr1)
    as (db1 & g1 & oid & Hupd1 & Hcons1 & Hrepos1 & Hgh1 & Hoid & _ & Hnew1); [done..|].
  destruct (Hnew1 Hun1) as [Hg1 Howner1].
  assert (rows (repositories db1) !! i2 = Some lr2) as Hlr2'.
  { rewrite Hrepos1. cbn. by rewrite lookup_alter_ne. }
  set (st1 := mkDatastore db1 (transactions st ++ [ReadWrite])).
  destruct (update_spec st1 r2 i2 p2 lr2)
    as (db2 & g2 & oid2 & Hupd2 & Hcons2 & Hrepos2 & Hgh2 & _ & _ & Hnew2); [done..|].
  destruct (Hnew2 Hun2) as [Hg2 Howner2]. cbn [database st1] in *.
  (* the second lookup finds the owner the first upsert resolved *)
  assert (∃ o, firstOwnerIgnoreCase (getLogin (getOwner p2)) (owners db1) = Some (oid, o)
               ∧ equalsIgnoreCase (login o) (getLogin (getOwner p1)) = true)
    as (o & Hfound2 & Hmatch1).
  { destruct (firstOwnerIgnoreCase (getLogin (getOwner p1)) (owners (database st)))
      as [[k o]|] eqn:Hfound1.
    - destruct Howner1 as [-> ->]. exists o. split.
      + by rewrite <- (firstOwnerIgnoreCase_fold _ _ _ Hlogin).
      + by destruct (firstOwnerIgnoreCase_Some _ _ _ Hfound1).
    - destruct Howner1 as [-> ->]. eexists. split.
      + apply firstOwnerIgnoreCase_added; [apply Hcons|done..].
      + apply equalsIgnoreCase_refl. }
  rewrite Hfound2 in Howner2. destruct Howner2 as [-> Hsame]. cbn [fst].
  assert (g1 ≠ g2) as Hg.
  { rewrite Hg2, Hg1. destruct Hcons1 as (_ & Hkeys & _).
    intros Heq. assert (is_Some (rows (gitHubRepositories db1) !! g1)) as [e He].
    { rewrite Hgh1. by rewrite lookup_insert_eq. }
    pose proof (keysGenerated_lookup _ _ _ Hkeys He). lia. }
  exists st1, (mkDatastore db2 (transactions st1 ++ [ReadWrite])), g1, g2, oid, o.
  split; [done|]. split; [done|]. split.
  { unfold linkOf. cbn [database]. rewrite Hrepos2, Hrepos1. cbn.
    rewrite lookup_alter_ne, lookup_alter_eq, Hlr1 by done. done. }
  split.
  { unfold linkOf. cbn [database]. rewrite Hrepos2. cbn.
    rewrite lookup_alter_eq, Hlr2'. done. }
  split; [done|]. split.
  { unfold ownerOf. cbn. rewrite Hgh2, lookup_insert_ne, Hgh1, lookup_insert_eq by done.
    done. }
  split.
  { unfold ownerOf. cbn. rewrite Hgh2, lookup_insert_eq. done. }
  destruct (firstOwnerIgnoreCase_Some _ _ _ Hfound2) as [Ho Hmatch2]. cbn in Ho, Hmatch2.
  cbn [database]. split; [by rewrite Hsame|]. do 3 (split; [done|]).
  intros k o' Ho' Hmatch'. rewrite Hupd1 in Hdistinct. cbn [snd] in Hdistinct.
  fold st1 in Hdistinct. rewrite Hupd2 in Hdistinct. cbn in Hdistinct.
  apply (Hdistinct k oid o' o Ho'); [by rewrite Hsame|].
  apply String.eqb_eq. apply String.eqb_eq in Hmatch', Hmatch1. congruence.
Qed.

Lemma owner_reused_across_repositories_witness :
  let st := (addRepository (Examples.bare "/work/dotfiles")
               (addRepository (Examples.bare "/work/desktop") Examples.emptyStore).2).2 in
  let r1 := mkRepository "/work/desktop" (Some Examples.desktop) (Some 1) in
  let r2 := mkRepository "/work/dotfiles" (Some Examples.dotfiles) (Some 2) in
  ∃ st1 st2 g1 g2 oid o,
    updateGitHubRepository r1 st = (inr tt, st1)
    ∧ updateGitHubRepository r2 st1 = (inr tt, st2)
    ∧ linkOf (database st2) 1 = Some g1
    ∧ linkOf (database st2) 2 = Some g2
    ∧ g1 ≠ g2
    ∧ ownerOf (database st2) g1 = Some oid
    ∧ ownerOf (database st2) g2 = Some oid
    ∧ rows (owners (database st2)) !! oid = Some o
    ∧ equalsIgnoreCase (login o) (getLogin (getOwner Examples.desktop)) = true
    ∧ equalsIgnoreCase (login o) (getLogin (getOwner Examples.dotfiles)) = true
    ∧ owners (database st2) = owners (database st1)
    ∧ ∀ k o', rows (owners (database st2)) !! k = Some o' →
              equalsIgnoreCase (login o') (getLogin (getOwner Examples.desktop)) = true →
              k = oid.
Proof.
  cbn zeta.
  apply (owner_reused_across_repositories _ _ _ 1 2 Examples.desktop Examples.dotfiles
           (mkDatabaseRepository "/work/desktop" None)
           (mkDatabaseRepository "/work/dotfiles" None)).
  - do 2 apply reachable_addRepository. apply reachable_empty.
  - reflexivity.
  - reflexivity.
  - lia.
  - reflexivity.
  - reflexivity.
  - vm_compute. reflexivity.
  - vm_compute. reflexivity.
  - reflexivity.
  - reflexivity.
  - reflexivity.
Defined.

(** *** Identifier stability *)

Lemma updateAll_spec st r i lr ps :
  consistent (database st) → getID r = Some i →
  rows (repositories (database st)) !! i = Some lr →
  ∃ st' lr',
    updateAll r ps st = (inr tt, st')
    ∧ consistent (database st')
    ∧ dom (rows (repositories (database st')))
      = dom (rows (repositories (database st)))
    ∧ rows (repositories (database st')) !! i = Some lr'
    ∧ path lr' = path lr
    ∧ (ps ≠ [] → is_Some (gitHubRepositoryID lr'))
    ∧ (∀ g, gitHubRepositoryID lr = Some g →
         gitHubRepositoryID lr' = Some g
         ∧ ownerOf (database st') g = ownerOf (database st) g).
Proof.
  revert st lr. induction ps as [|p ps IH]; intros st lr Hcons Hid Hlr.
  { exists st, lr. cbn. by destruct st. }
  destruct (update_spec st (mkRepository (getPath r) (Some p) (getID r)) i p lr)
    as (db1 & g & oid & Hupd & Hcons1 & Hrepos1 & Hgh1 & _ & Hold & _); [done..|].
  set (st1 := mkDatastore db1 (transactions st ++ [ReadWrite])).
  assert (rows (repositories (database st1)) !! i = Some (relink g lr)) as Hlr1.
  { cbn. rewrite Hrepos1. cbn. by rewrite lookup_alter_eq, Hlr. }
  destruct (IH st1 (relink g lr) Hcons1 Hid Hlr1)
    as (st' & lr' & Hrest & Hcons' & Hdom & Hlr' & Hpath & _ & Hkeep).
  destruct (Hkeep g eq_refl) as [Hg' Howner'].
  exists st', lr'. split.
  { cbn. unfold mbind, Method_bind. by rewrite Hupd. }
  split; [done|]. split.
  { rewrite Hdom. cbn. rewrite Hrepos1. cbn. apply dom_alter_L. }
  split; [done|]. split; [done|]. split; [by rewrite Hg'|].
  intros g0 Hg0. destruct (Hold g0 Hg0) as (-> & Howner & _).
  split; [done|]. rewrite Howner', Howner. unfold ownerOf. cbn.
  by rewrite Hgh1, lookup_insert_eq.
Qed.

(** C3. Add a local repository, then upsert remote repositories on it
    any number of times, with any payloads. Every call succeeds; the
    local repository stays stored and listed under the identifier it
    was added with, and the local identifiers in use do not change;
    once it links to a remote repository, which it does from the first
    upsert on, every later upsert leaves it linked to the remote
    repository of the same identifier, under the owner that remote
    repository already had, whatever the owner in the payload. *)
Theorem identifiers_stable st x ps1 ps2 :
  reachable st →
  ∃ i st1 st2 st3,
    addRepository x st = (inr (withID x i), st1)
    ∧ updateAll (withID x i) ps1 st1 = (inr tt, st2)
    ∧ updateAll (withID x i) ps2 st2 = (inr tt, st3)
    ∧ dom (rows (repositories (database st3)))
      = dom (rows (repositories (database st1)))
    ∧ (∃ entries entry,
         (getRepositories st3).1 = inr entries ∧ entry ∈ entries
         ∧ getID entry = Some i ∧ getPath entry = getPath x)
    ∧ (is_Some (getGitHubRepository x) ∨ ps1 ≠ [] →
       is_Some (linkOf (database st2) i))
    ∧ (∀ g, linkOf (database st2) i = Some g →
         linkOf (database st3) i = Some g
         ∧ ownerOf (database st3) g = ownerOf (database st2) g).
Proof.
  intros Hcons%reachable_consistent.
  destruct (addRepository_spec st x Hcons)
    as (st1 & lr1 & Hadd & Hcons1 & Hlr1 & Hpath1 & _ & Hremote).
  destruct (updateAll_spec st1 (withID x _) _ lr1 ps1 Hcons1 eq_refl Hlr1)
    as (st2 & lr2 & Hupd1 & Hcons2 & Hdom2 & Hlr2 & Hpath2 & Hlinked2 & Hkeep2).
  destruct (updateAll_spec st2 (withID x _) _ lr2 ps2 Hcons2 eq_refl Hlr2)
    as (st3 & lr3 & Hupd2 & Hcons3 & Hdom3 & Hlr3 & Hpath3 & _ & Hkeep3).
  destruct (getRepositories_lists st3 _ lr3 Hcons3 Hlr3) as (entries & Hlist & Hin).
  eexists _, st1, st2, st3. split; [done|]. split; [done|]. split; [done|].
  split; [by rewrite Hdom3, Hdom2|]. split.
  { eexists entries, _. split; [done|]. split; [done|]. split; [done|].
    cbn. by rewrite Hpath3, Hpath2. }
  split.
  - unfold linkOf. rewrite Hlr2. cbn. intros [[p Hp]|Hps]; [|by apply Hlinked2].
    destruct (Hremote p Hp) as (g & _ & Hg & _).
    destruct (Hkeep2 g Hg) as [-> _]. done.
  - unfold linkOf. rewrite Hlr2, Hlr3. cbn. apply Hkeep3.
Qed.

Lemma identifiers_stable_witness :
  ∃ i st1 st2 st3,
    addRepository (Examples.bare "/work/desktop") Examples.emptyStore
    = (inr (withID (Examples.bare "/work/desktop") i), st1)
    ∧ updateAll (withID (Examples.bare "/work/desktop") i) [Examples.desktop] st1
      = (inr tt, st2)
    ∧ updateAll (withID (Examples.bare "/work/desktop") i)
        [Examples.dotfiles; Examples.desktop] st2
      = (inr tt, st3)
    ∧ dom (rows (repositories (database st3)))
      = dom (rows (repositories (database st1)))
    ∧ (∃ entries entry,
         (getRepositories st3).1 = inr entries ∧ entry ∈ entries
         ∧ getID entry = Some i
         ∧ getPath entry = getPath (Examples.bare "/work/desktop"))
    ∧ (is_Some (getGitHubRepository (Examples.bare "/work/desktop"))
       ∨ [Examples.desktop] ≠ [] →
       is_Some (linkOf (database st2) i))
    ∧ (∀ g, linkOf (database st2) i = Some g →
         linkOf (database st3) i = Some g
         ∧ ownerOf (database st3) g = ownerOf (database st2) g).
Proof.
  apply (identifiers_stable Examples.emptyStore (Examples.bare "/work/desktop")
           [Examples.desktop] [Examples.dotfiles; Examples.desktop]).
  exact (reachable_empty []).
Defined.

(** *** The scenario of the specification *)

(** On a catalog with no rows, adding [/some/cool/path] without a remote
    repository returns it with identifier [1], and the listing is that
    one repository. *)
Example add_then_list_on_empty_catalog :
  let x := Examples.bare "/some/cool/path" in
  let '(added, st) := addRepository x Examples.emptyStore in
  added = inr (mkRepository "/some/cool/path" None (Some 1))
  ∧ (getRepositories st).1 = inr [mkRepository "/some/cool/path" None (Some 1)]
  ∧ transactions (getRepositories st).2 = [ReadWrite; ReadOnly].
Proof. vm_compute. done. Qed.

End CatalogFacts.

(** ** Further facts about the commit history cache *)

Module GitMoreFacts.
Import JS JSFacts Git GitNotions GitFacts.
#[local] Open Scope list_scope.

Implicit Types (s : GitStore) (r : GitResult) (git : GitCall → GitResult)
  (sys : System) (t : Task).

(** *** Storing commits *)

Lemma storeCommits_lookup (cs : list Commit) (m : gmap string Commit) x :
  is_Some (foldl (λ m c, <[sha c := c]> m) m cs !! x)
  ↔ is_Some (m !! x) ∨ x ∈ sha <$> cs.
Proof.
  revert m. induction cs as [|c cs IH]; intros m; cbn.
  - rewrite elem_of_nil. tauto.
  - rewrite IH, lookup_insert_is_Some, elem_of_cons.
    destruct (decide (sha c = x)) as [->|Hne]; [tauto|].
    split; [intros [[?|[_ ?]]|?]|intros [?|[?|?]]]; auto; congruence.
Qed.

Lemma add_then_delete (rs : gset string) key :
  key ∉ rs → (rs ∪ {[key]}) ∖ {[key]} = rs.
Proof.
  intros Hkey. apply set_eq. intros x.
  rewrite elem_of_difference, elem_of_union, elem_of_singleton.
  split; [intros [[?|?] ?]; done|]. intros Hx. split; [by left|]. by intros ->.
Qed.

Lemma reconcile_old_history (fetched : list Commit) (history : list string) x :
  x ∈ (reconcile fetched history).2 → x ∈ history.
Proof.
  unfold reconcile. destruct history as [|mostRecent older]; [done|].
  destruct (_ >? _); cbn; [done|]. by intros ?%elem_of_nil.
Qed.

(** *** A batch that resolves *)

(** X1. When its guards let a [loadNextHistoryBatch] call through and the
    fetch resolves, the SHAs of the batch are appended to the history,
    which keeps everything it had, the request key is released, so that
    the in-flight set is what it was, Git was invoked once, from the
    parent of the last SHA, and the emitter fires the batch and then an
    update. *)
Theorem loadNextHistoryBatch_appends git s lastSHA cs :
  LoadingHistoryRequestKey ∉ requestsInFight s →
  last (_history s) = Some lastSHA →
  "history/" +:+ lastSHA ∉ requestsInFight s →
  git (nextCall lastSHA) = Resolved cs →
  let out := run git loadNextHistoryBatch s in
  _history (final out) = _history s ++ (sha <$> cs)
  ∧ requestsInFight (final out) = requestsInFight s
  ∧ emitted (final out) = emitted s ++ [DidLoadNewCommits cs; DidUpdate]
  ∧ invoked out = [nextCall lastSHA]
  ∧ completion out = inr tt.
Proof.
  intros Hhistory Hlast Hbatch Hgit. cbn zeta.
  rewrite (run_loadNextHistoryBatch git s lastSHA), Hgit
    by by apply nextBatchGuard_Some.
  cbn. split; [done|]. split; [by apply add_then_delete|].
  split; [by rewrite <- app_assoc|done].
Qed.

Lemma loadNextHistoryBatch_appends_witness :
  let git := λ _ : GitCall, Resolved Examples.unrelated in
  let out := run git loadNextHistoryBatch Examples.loaded in
  _history (final out) = _history Examples.loaded ++ (sha <$> Examples.unrelated)
  ∧ requestsInFight (final out) = requestsInFight Examples.loaded
  ∧ emitted (final out)
    = emitted Examples.loaded ++ [DidLoadNewCommits Examples.unrelated; DidUpdate]
  ∧ invoked out = [nextCall "c2"]
  ∧ completion out = inr tt.
Proof.
  apply (loadNextHistoryBatch_appends (λ _, Resolved Examples.unrelated)
           Examples.loaded "c2" Examples.unrelated).
  - cbn. apply not_elem_of_empty.
  - reflexivity.
  - cbn. apply not_elem_of_empty.
  - reflexivity.
Defined.

(** *** Reloading *)

Lemma findIndexFrom_cases {A} (p : A → bool) (l : list A) i :
  findIndexFrom i p l = -1
  ∨ ∃ (n : nat) x, findIndexFrom i p l = i + Z.of_nat n
                   ∧ l !! n = Some x ∧ p x = true.
Proof.
  revert i. induction l as [|a l IH]; intros i; [by left|]. cbn.
  destruct (p a) eqn:Hp.
  - right. exists 0%nat, a. split; [lia|done].
  - destruct (IH (i + 1)) as [->|(n & x & -> & Hn & Hx)]; [by left|].
    right. exists (S n), x. split; [lia|done].
Qed.

(** What the reconciliation keeps: a prefix of the batch before the old
    history, or the batch alone. *)
Lemma reconcile_cases (fetched : list Commit) mostRecent older :
  (∃ (n : nat) c, fetched !! n = Some c ∧ sha c = mostRecent
                  ∧ reconcile fetched (mostRecent :: older)
                    = (take n fetched, mostRecent :: older))
  ∨ reconcile fetched (mostRecent :: older) = (fetched, []).
Proof.
  unfold reconcile, findIndex.
  destruct (findIndexFrom_cases (λ c, String.eqb (sha c) mostRecent) fetched 0)
    as [->|(n & c & -> & Hn & Hc)]; [by right|].
  left. exists n, c. apply String.eqb_eq in Hc. do 2 (split; [done|]).
  destruct (Z.gtb_spec (0 + Z.of_nat n) (-1)); [|lia].
  replace (0 + Z.of_nat n) with (Z.of_nat n) by lia.
  rewrite slice_prefix; [done|]. apply lookup_lt_Some in Hn. lia.
Qed.

Lemma reconcile_head (c : Commit) (l : list Commit) older :
  reconcile (c :: l) (sha c :: older) = ([], sha c :: older).
Proof. unfold reconcile, findIndex. cbn. by rewrite String.eqb_refl. Qed.

Lemma reconcile_fresh (fetched : list Commit) :
  reconcile fetched (sha <$> fetched) = ([], sha <$> fetched).
Proof. destruct fetched as [|c l]; [done|]. apply reconcile_head. Qed.

(** Reconciling the same batch with the history it gave keeps nothing of
    the batch and all of the history. *)
Lemma reconcile_again (fetched : list Commit) (history : list string) :
  reconcile fetched ((sha <$> (reconcile fetched history).1)
                     ++ (reconcile fetched history).2)
  = ([], (sha <$> (reconcile fetched history).1) ++ (reconcile fetched history).2).
Proof.
  destruct history as [|mostRecent older].
  { cbn. rewrite app_nil_r. apply reconcile_fresh. }
  destruct (reconcile_cases fetched mostRecent older)
    as [(n & c & Hn & Hc & ->)| ->]; cbn [fst snd].
  - destruct n as [|n].
    + destruct fetched as [|c' l]; [done|]. cbn in Hn. simplify_eq.
      cbn. apply reconcile_head.
    + destruct fetched as [|c' l]; [done|]. cbn. apply reconcile_head.
  - rewrite app_nil_r. apply reconcile_fresh.
Qed.

Lemma loadHistory_settled_resolved fetched s :
  loadHistory_settled (Resolved fetched) s
  = emit DidUpdate
      (emit (DidLoadNewCommits (reconcile fetched (_history s)).1)
         (set_requestsInFight (λ rs, rs ∖ {[LoadingHistoryRequestKey]})
            (set_commits
               (λ m, foldl (λ m c, <[sha c := c]> m) m
                       (reconcile fetched (_history s)).1)
               (set_history
                  ((sha <$> (reconcile fetched (_history s)).1)
                   ++ (reconcile fetched (_history s)).2) s)))).
Proof. cbn. by destruct (reconcile _ _). Qed.

(** X2. Loading the history again while HEAD has not moved (the fetch
    resolves to the same batch) changes neither the history nor the
    commits and leaves the in-flight set as it was before the first
    load: Git is invoked again, and the emitter fires an empty batch of
    new commits and an update. *)
Theorem loadHistory_reload_unchanged git s fetched :
  LoadingHistoryRequestKey ∉ requestsInFight s →
  git HEADCall = Resolved fetched →
  let once := final (run git loadHistory s) in
  let twice := run git loadHistory once in
  _history (final twice) = _history once
  ∧ commits (final twice) = commits once
  ∧ requestsInFight (final twice) = requestsInFight s
  ∧ emitted (final twice) = emitted once ++ [DidLoadNewCommits []; DidUpdate]
  ∧ invoked twice = [HEADCall].
Proof.
  intros Hin Hgit. cbn zeta.
  rewrite (run_loadHistory git s Hin), Hgit. cbn [final].
  set (once := loadHistory_settled (Resolved fetched) _).
  assert (requestsInFight once = requestsInFight s) as Hkeys.
  { subst once. rewrite loadHistory_settled_resolved. cbn.
    by apply add_then_delete. }
  assert (_history once
          = (sha <$> (reconcile fetched (_history s)).1)
            ++ (reconcile fetched (_history s)).2) as Hhistory.
  { subst once. by rewrite loadHistory_settled_resolved. }
  clearbody once.
  rewrite run_loadHistory by by rewrite Hkeys.
  rewrite Hgit, loadHistory_settled_resolved. cbn.
  rewrite Hhistory, reconcile_again. cbn.
  rewrite Hkeys. split; [done|]. split; [done|].
  split; [by apply add_then_delete|]. split; [by rewrite <- app_assoc|done].
Qed.

Lemma loadHistory_reload_unchanged_witness :
  let git := λ _ : GitCall, Resolved Examples.ahead in
  let once := final (run git loadHistory Examples.loaded) in
  let twice := run git loadHistory once in
  _history (final twice) = _history once
  ∧ commits (final twice) = commits once
  ∧ requestsInFight (final twice) = requestsInFight Examples.loaded
  ∧ emitted (final twice) = emitted once ++ [DidLoadNewCommits []; DidUpdate]
  ∧ invoked twice = [HEADCall].
Proof.
  apply (loadHistory_reload_unchanged (λ _, Resolved Examples.ahead)
           Examples.loaded Examples.ahead).
  - cbn. apply not_elem_of_empty.
  - reflexivity.
Defined.

(** *** The history and the commits map *)

Lemma historyKnown_stored s cs kept :
  historyKnown s → (∀ x, x ∈ kept → x ∈ _history s) →
  ∀ x, x ∈ (sha <$> cs) ++ kept →
       is_Some (foldl (λ m c, <[sha c := c]> m) (commits s) cs !! x).
Proof.
  intros Hknown Hkept x [Hx|Hx]%elem_of_app; apply storeCommits_lookup.
  - by right.
  - left. by apply Hknown, Hkept.
Qed.

Lemma historyKnown_loadHistory_settled r s :
  historyKnown s → historyKnown (loadHistory_settled r s).
Proof.
  intros Hknown. destruct r as [fetched|e]; [|done].
  rewrite loadHistory_settled_resolved. intros x Hx. cbn in *.
  apply (historyKnown_stored s _ (reconcile fetched (_history s)).2); [done| |done].
  apply reconcile_old_history.
Qed.

Lemma historyKnown_loadNextHistoryBatch_settled key r s :
  historyKnown s → historyKnown (loadNextHistoryBatch_settled key r s).
Proof.
  intros Hknown. destruct r as [cs|e]; [|done].
  intros x Hx. cbn in *. apply storeCommits_lookup.
  apply elem_of_app in Hx as [Hx|Hx]; [left; by apply Hknown|by right].
Qed.

Lemma run_loadHistory_guarded {git} s :
  LoadingHistoryRequestKey ∈ requestsInFight s →
  run git loadHistory s = mkOutcome s (inr tt) [].
Proof. intros Hin. unfold run. by rewrite loadHistory_guarded. Qed.

Lemma run_loadNextHistoryBatch_guarded {git} s :
  nextBatchGuard s = None →
  run git loadNextHistoryBatch s = mkOutcome s (inr tt) [].
Proof. intros Hg. unfold run. by rewrite loadNextHistoryBatch_guarded. Qed.

(** X3. Whatever Git answers, a [loadHistory] or [loadNextHistoryBatch]
    call keeps the history resolvable: if every SHA of the history could
    be looked up in [commits] before the call, every SHA of the history
    can be after it. *)
Theorem loaders_keep_history_known git s :
  historyKnown s →
  historyKnown (final (run git loadHistory s))
  ∧ historyKnown (final (run git loadNextHistoryBatch s)).
Proof.
  intros Hknown. split.
  - destruct (decide (LoadingHistoryRequestKey ∈ requestsInFight s)) as [Hin|Hin].
    + by rewrite run_loadHistory_guarded.
    + rewrite run_loadHistory by done. cbn [final].
      by apply historyKnown_loadHistory_settled.
  - destruct (nextBatchGuard s) as [lastSHA|] eqn:Hg.
    + rewrite (run_loadNextHistoryBatch git s lastSHA) by done. cbn [final].
      by apply historyKnown_loadNextHistoryBatch_settled.
    + by rewrite run_loadNextHistoryBatch_guarded.
Qed.

Lemma loaders_keep_history_known_witness :
  historyKnown (final (run (λ _, Resolved Examples.ahead) loadHistory Examples.fresh))
  ∧ historyKnown
      (final (run (λ _, Resolved Examples.ahead) loadNextHistoryBatch Examples.fresh)).
Proof.
  apply (loaders_keep_history_known (λ _, Resolved Examples.ahead) Examples.fresh).
  intros x Hx. by apply elem_of_nil in Hx.
Defined.

(** X4. Whatever Git answers, neither loader evicts a commit: every SHA
    that could be looked up in [commits] before a [loadHistory] or
    [loadNextHistoryBatch] call can be looked up after it. *)
Theorem loaders_never_evict_commits git s x :
  is_Some (commits s !! x) →
  is_Some (commits (final (run git loadHistory s)) !! x)
  ∧ is_Some (commits (final (run git loadNextHistoryBatch s)) !! x).
Proof.
  intros Hx. split.
  - destruct (decide (LoadingHistoryRequestKey ∈ requestsInFight s)) as [Hin|Hin].
    + by rewrite run_loadHistory_guarded.
    + rewrite run_loadHistory by done. cbn [final].
      destruct (git HEADCall) as [fetched|e]; [|done].
      rewrite loadHistory_settled_resolved. cbn. apply storeCommits_lookup. by left.
  - destruct (nextBatchGuard s) as [lastSHA|] eqn:Hg.
    + rewrite (run_loadNextHistoryBatch git s lastSHA) by done. cbn [final].
      destruct (git (nextCall lastSHA)) as [cs|e]; [|done].
      cbn. apply storeCommits_lookup. by left.
    + by rewrite run_loadNextHistoryBatch_guarded.
Qed.

Lemma loaders_never_evict_commits_witness :
  let s := mkGitStore {["c0" := Examples.commit "c0"]} ["c0"] ∅ [] in
  is_Some (commits (final (run (λ _, Resolved Examples.unrelated) loadHistory s)) !! "c0")
  ∧ is_Some (commits (final (run (λ _, Resolved Examples.unrelated)
                                loadNextHistoryBatch s)) !! "c0").
Proof.
  apply (loaders_never_evict_commits (λ _, Resolved Examples.unrelated)
           (mkGitStore {["c0" := Examples.commit "c0"]} ["c0"] ∅ []) "c0").
  cbn. rewrite lookup_singleton_eq. by eexists.
Defined.

(** *** The guarded call *)

Lemma runStep_performFailableOperation {T} git (st : Step T) s log :
  runStep git
    (catchStep (bindStep st (λ result, mret (Some result)) s).2
       (λ e, emitError e;; mret None)
       (bindStep st (λ result, mret (Some result)) s).1).2
    (catchStep (bindStep st (λ result, mret (Some result)) s).2
       (λ e, emitError e;; mret None)
       (bindStep st (λ result, mret (Some result)) s).1).1
    log
  = match completion (runStep git st s log) with
    | inr result =>
        mkOutcome (final (runStep git st s log)) (inr (Some result))
          (invoked (runStep git st s log))
    | inl e =>
        mkOutcome (emit (DidError e) (final (runStep git st s log))) (inr None)
          (invoked (runStep git st s log))
    end.
Proof.
  revert s log. induction st as [a|e|c k IH] using Step_induction; intros s log.
  - reflexivity.
  - reflexivity.
  - cbn. specialize (IH (git c) s). destruct (k (git c) s) as [s' st'].
    cbn in IH. rewrite <- (IH s' (log ++ [c])). clear IH.
    destruct (bindStep st' _ s') as [s1 st1]. cbn.
    by destruct (catchStep st1 _ s1) as [s2 st2].
Qed.

(** X5. Whatever operation [performFailableOperation] is given, however
    many times it awaits Git, the guarded call invokes Git as the
    operation does and never throws: when the operation returns a result,
    it returns that result and leaves the store as the operation did; when
    the operation throws, it returns [undefined] after emitting that
    error, once, on the store the operation left. *)
Theorem performFailableOperation_never_throws {T} git (fn : Async T) s :
  let plain := run git fn s in
  let guarded := run git (performFailableOperation fn) s in
  invoked guarded = invoked plain
  ∧ match completion plain with
    | inr result =>
        completion guarded = inr (Some result) ∧ final guarded = final plain
    | inl e =>
        completion guarded = inr None
        ∧ final guarded = emit (DidError e) (final plain)
    end.
Proof.
  cbn zeta. unfold run, performFailableOperation, tryCatch, mbind, Async_bind, bind.
  destruct (fn s) as [s' st].
  pose proof (runStep_performFailableOperation git st s' []) as Hrun.
  destruct (bindStep st _ s') as [s1 st1]. cbn in Hrun.
  destruct (catchStep st1 _ s1) as [s2 st2]. cbn in Hrun. rewrite Hrun.
  by destruct (completion (runStep git st s' [])).
Qed.

(** *** Requests in flight along executions *)

Lemma holds_same_call t1 t2 key1 key2 :
  holds t1 key1 → holds t2 key2 → awaiting t1 = awaiting t2 → key1 = key2.
Proof.
  intros [t Ha _|t lastSHA Ha _] Ht2 Heq.
  - symmetry. eapply holds_awaiting_HEAD; [done|]. by rewrite <- Heq.
  - symmetry. eapply holds_awaiting_next; [done|]. by rewrite <- Heq.
Qed.

(** X6. In every execution from a store on which nothing is pending, no
    two suspended calls await the same Git invocation: at most one
    [loadHistory] is suspended at a time, and at most one
    [loadNextHistoryBatch] per last SHA. *)
Theorem suspended_calls_are_distinct s0 sys n m t1 t2 :
  steps (idle s0) sys →
  pending sys !! n = Some t1 → pending sys !! m = Some t2 →
  awaiting t1 = awaiting t2 → n = m.
Proof.
  intros Hreach Hn Hm Hcall.
  destruct (exclusive_steps _ _ (exclusive_idle s0) Hreach) as (keys & Hholds & Hnd & _).
  destruct (Forall2_lookup_l _ _ _ _ _ Hholds Hn) as (key1 & Hkey1 & Ht1).
  destruct (Forall2_lookup_l _ _ _ _ _ Hholds Hm) as (key2 & Hkey2 & Ht2).
  rewrite <- (holds_same_call _ _ _ _ Ht1 Ht2 Hcall) in Hkey2.
  by eapply NoDup_lookup.
Qed.

Lemma suspended_calls_are_distinct_witness :
  let sys := call loadHistory (call loadNextHistoryBatch (idle Examples.loaded)) in
  ∃ t1 t2, pending sys !! 0%nat = Some t1 ∧ pending sys !! 1%nat = Some t2
           ∧ (awaiting t1 = awaiting t2 → 0%nat = 1%nat).
Proof.
  cbn zeta.
  assert (steps (idle Examples.loaded)
            (call loadHistory (call loadNextHistoryBatch (idle Examples.loaded))))
    as Hreach.
  { eapply rtc_l; [apply step_loadNextHistoryBatch|]. apply rtc_once, step_loadHistory. }
  destruct (call_loadNextHistoryBatch_issued (idle Examples.loaded) "c2")
    as (k1 & Heq1 & _).
  { apply nextBatchGuard_Some. cbn. by repeat split; try apply not_elem_of_empty. }
  destruct (call_loadHistory_issued (call loadNextHistoryBatch (idle Examples.loaded)))
    as (k2 & Heq2 & _).
  { rewrite Heq1. cbn. rewrite elem_of_union, elem_of_singleton.
    intros [Hin|Hin]; [by apply elem_of_empty in Hin|done]. }
  assert (pending (call loadHistory (call loadNextHistoryBatch (idle Examples.loaded)))
          = [mkTask (nextCall "c2") k1; mkTask HEADCall k2]) as Hpending.
  { rewrite Heq2. cbn. by rewrite Heq1. }
  exists (mkTask (nextCall "c2") k1), (mkTask HEADCall k2).
  assert (pending (call loadHistory (call loadNextHistoryBatch (idle Examples.loaded)))
          !! 0%nat = Some (mkTask (nextCall "c2") k1)) as H0 by by rewrite Hpending.
  assert (pending (call loadHistory (call loadNextHistoryBatch (idle Examples.loaded)))
          !! 1%nat = Some (mkTask HEADCall k2)) as H1 by by rewrite Hpending.
  split; [exact H0|]. split; [exact H1|].
  exact (suspended_calls_are_distinct Examples.loaded _ 0 1 _ _ Hreach H0 H1).
Defined.

Lemma holds_resume_history t key :
  holds t key → awaiting t = HEADCall →
  ∀ r s, resume t r s = (loadHistory_settled r s, Ret tt).
Proof.
  intros [t' _ Hres|t' lastSHA Ha _] Hhead; [done|].
  rewrite Hhead in Ha. by apply HEADCall_not_nextCall in Ha.
Qed.

Lemma holds_resume_batch t key lastSHA :
  holds t key → awaiting t = nextCall lastSHA →
  ∀ r s, resume t r s
         = (loadNextHistoryBatch_settled ("history/" +:+ lastSHA) r s, Ret tt).
Proof.
  intros [t' Ha _|t' lastSHA' Ha Hres] Hnext.
  - rewrite Hnext in Ha. symmetry in Ha. by apply HEADCall_not_nextCall in Ha.
  - rewrite Hnext in Ha. by apply nextCall_inj in Ha as ->.
Qed.

(** X7. In every execution, when the fetch of a suspended [loadHistory]
    resolves, the request key ["history"] is released: it is no longer
    in flight, and the next [loadHistory] call goes through to Git. The
    same holds for the key of a suspended [loadNextHistoryBatch]. *)
Theorem resolved_fetch_releases_key s0 sys n t fetched :
  steps (idle s0) sys →
  pending sys !! n = Some t →
  let sys' := settle n (Resolved fetched) sys in
  (awaiting t = HEADCall →
     (LoadingHistoryRequestKey ∉ requestsInFight (store sys'))
     ∧ invocations (call loadHistory sys') = invocations sys' ++ [HEADCall])
  ∧ (∀ lastSHA, awaiting t = nextCall lastSHA →
       "history/" +:+ lastSHA ∉ requestsInFight (store sys')).
Proof.
  intros Hreach Hn. cbn zeta.
  destruct (exclusive_steps _ _ (exclusive_idle s0) Hreach) as (keys & Hholds & _).
  destruct (Forall2_lookup_l _ _ _ _ _ Hholds Hn) as (key & _ & Ht).
  assert (∀ k s, k ∉ requestsInFight (set_requestsInFight (λ rs, rs ∖ {[k]}) s))
    as Hgone.
  { intros k s. cbn. rewrite elem_of_difference, elem_of_singleton. by intros [_ []]. }
  split.
  - intros Hhead.
    rewrite (settle_finishing sys n t _ loadHistory_settled Hn
               (holds_resume_history t key Ht Hhead)).
    assert (LoadingHistoryRequestKey
            ∉ requestsInFight (loadHistory_settled (Resolved fetched) (store sys)))
      as Hfree.
    { rewrite loadHistory_settled_resolved. apply Hgone. }
    split; [done|].
    match goal with |- context [call loadHistory ?x] => set (sys' := x) end.
    by destruct (call_loadHistory_issued sys' Hfree) as (k & -> & _).
  - intros lastSHA Hnext.
    rewrite (settle_finishing sys n t _
               (loadNextHistoryBatch_settled ("history/" +:+ lastSHA)) Hn
               (holds_resume_batch t key lastSHA Ht Hnext)).
    apply Hgone.
Qed.

Lemma resolved_fetch_releases_key_witness :
  ∃ t, pending (call loadHistory (idle Examples.fresh)) !! 0%nat = Some t
       ∧ awaiting t = HEADCall
       ∧ let sys' := settle 0 (Resolved Examples.ahead)
                       (call loadHistory (idle Examples.fresh)) in
         (LoadingHistoryRequestKey ∉ requestsInFight (store sys'))
         ∧ invocations (call loadHistory sys') = invocations sys' ++ [HEADCall].
Proof.
  destruct (call_loadHistory_issued (idle Examples.fresh)) as (k & Heq & Hk).
  { cbn. apply not_elem_of_empty. }
  exists (mkTask HEADCall k).
  assert (pending (call loadHistory (idle Examples.fresh)) !! 0%nat
          = Some (mkTask HEADCall k)) as Hn by (by rewrite Heq).
  split; [exact Hn|]. split; [reflexivity|]. cbn zeta.
  destruct (resolved_fetch_releases_key Examples.fresh
              (call loadHistory (idle Examples.fresh)) 0 (mkTask HEADCall k)
              Examples.ahead
              (rtc_once _ _ (step_loadHistory _)) Hn)
    as [Hhistory _].
  exact (Hhistory eq_refl).
Defined.

(** X8. In every execution, while a [loadHistory] call is suspended,
    every [loadNextHistoryBatch] call returns at once, changing nothing
    and invoking nothing; and while a [loadNextHistoryBatch] call started
    at a last SHA is suspended and the history still ends in that SHA,
    every further [loadNextHistoryBatch] call does. *)
Theorem loadNextHistoryBatch_suppressed_while_pending s0 sys n t :
  steps (idle s0) sys →
  pending sys !! n = Some t →
  (awaiting t = HEADCall → call loadNextHistoryBatch sys = sys)
  ∧ (∀ lastSHA, awaiting t = nextCall lastSHA →
       last (_history (store sys)) = Some lastSHA →
       call loadNextHistoryBatch sys = sys).
Proof.
  intros Hreach Hn.
  destruct (exclusive_steps _ _ (exclusive_idle s0) Hreach) as (keys & Hholds & _ & Hin).
  destruct (Forall2_lookup_l _ _ _ _ _ Hholds Hn) as (key & Hkey & Ht).
  apply list_elem_of_lookup_2, Hin in Hkey. split.
  - intros Hhead. rewrite (holds_awaiting_HEAD t key Ht Hhead) in Hkey.
    by apply call_loadNextHistoryBatch_guarded, nextBatchGuard_history_in_flight.
  - intros lastSHA Hnext Hlast.
    rewrite (holds_awaiting_next t key lastSHA Ht Hnext) in Hkey.
    by eapply call_loadNextHistoryBatch_guarded, nextBatchGuard_batch_in_flight.
Qed.

Lemma loadNextHistoryBatch_suppressed_while_pending_witness :
  let sys := call loadNextHistoryBatch (idle Examples.loaded) in
  ∃ t, pending sys !! 0%nat = Some t ∧ awaiting t = nextCall "c2"
       ∧ last (_history (store sys)) = Some "c2"
       ∧ call loadNextHistoryBatch sys = sys.
Proof.
  cbn zeta.
  destruct (call_loadNextHistoryBatch_issued (idle Examples.loaded) "c2")
    as (k & Heq & _).
  { apply nextBatchGuard_Some. cbn. by repeat split; try apply not_elem_of_empty. }
  exists (mkTask (nextCall "c2") k).
  assert (pending (call loadNextHistoryBatch (idle Examples.loaded)) !! 0%nat
          = Some (mkTask (nextCall "c2") k)) as Hn by by rewrite Heq.
  assert (last (_history (store (call loadNextHistoryBatch (idle Examples.loaded))))
          = Some "c2") as Hlast by by rewrite Heq.
  split; [exact Hn|]. split; [reflexivity|]. split; [exact Hlast|].
  destruct (loadNextHistoryBatch_suppressed_while_pending Examples.loaded
              (call loadNextHistoryBatch (idle Examples.loaded)) 0
              (mkTask (nextCall "c2") k)
              (rtc_once _ _ (step_loadNextHistoryBatch _)) Hn) as [_ Hbatch].
  exact (Hbatch "c2" eq_refl Hlast).
Defined.

(** X9. A [loadHistory] call is not held back by a suspended
    [loadNextHistoryBatch]. When the [loadHistory] fetch resolves first,
    to a batch that does not contain the old tip, and the earlier
    [loadNextHistoryBatch] fetch resolves after it, the history ends up
    as the new batch followed by the commits that were fetched as the
    continuation of the old history; both request keys are released. *)
Theorem late_batch_is_appended_to_reset_history s lastSHA mostRecent older fetched cs :
  LoadingHistoryRequestKey ∉ requestsInFight s →
  _history s = mostRecent :: older →
  last (_history s) = Some lastSHA →
  "history/" +:+ lastSHA ∉ requestsInFight s →
  (∀ c, c ∈ fetched → sha c ≠ mostRecent) →
  let started := call loadHistory (call loadNextHistoryBatch (idle s)) in
  let reset := settle 1 (Resolved fetched) started in
  let done := settle 0 (Resolved cs) reset in
  invocations started = [nextCall lastSHA; HEADCall]
  ∧ _history (store reset) = sha <$> fetched
  ∧ _history (store done) = (sha <$> fetched) ++ (sha <$> cs)
  ∧ requestsInFight (store done) = requestsInFight s
  ∧ pending done = [].
Proof.
  intros Hhistory Hhist Hlast Hbatch Hmissing. cbn zeta.
  destruct (call_loadNextHistoryBatch_issued (idle s) lastSHA) as (k1 & -> & Hk1).
  { by apply nextBatchGuard_Some. }
  match goal with |- context [call loadHistory ?x] => set (sys1 := x) end.
  destruct (call_loadHistory_issued sys1) as (k2 & -> & Hk2).
  { subst sys1. cbn. rewrite elem_of_union, elem_of_singleton.
    intros [?|Heq]; [done|]. by apply history_key_not_batch_key in Heq. }
  subst sys1. cbn [store pending invocations idle app].
  split; [done|].
  rewrite (settle_finishing _ 1 (mkTask HEADCall k2) _ loadHistory_settled);
    [|done|exact Hk2].
  cbn [store pending invocations delete list_delete].
  rewrite loadHistory_settled_resolved. cbn [_history set_requestsInFight].
  rewrite Hhist, reconcile_missing by done. cbn [fst snd]. rewrite app_nil_r.
  split; [done|].
  rewrite (settle_finishing _ 0 (mkTask (nextCall lastSHA) k1) _
             (loadNextHistoryBatch_settled ("history/" +:+ lastSHA)));
    [|done|exact Hk1].
  cbn. split; [done|]. split; [|done].
  apply set_eq. intros x.
  rewrite !elem_of_difference, !elem_of_union, !elem_of_singleton.
  split; [intros [[[[?|?]|?] ?] ?]; done|].
  intros Hx. repeat split.
  - by left; left.
  - by intros ->.
  - by intros ->.
Qed.

Lemma late_batch_is_appended_to_reset_history_witness :
  let s := Examples.loaded in
  let started := call loadHistory (call loadNextHistoryBatch (idle s)) in
  let reset := settle 1 (Resolved Examples.unrelated) started in
  let done := settle 0 (Resolved [Examples.commit "c3"]) reset in
  invocations started = [nextCall "c2"; HEADCall]
  ∧ _history (store reset) = sha <$> Examples.unrelated
  ∧ _history (store done)
    = (sha <$> Examples.unrelated) ++ (sha <$> [Examples.commit "c3"])
  ∧ requestsInFight (store done) = requestsInFight s
  ∧ pending done = [].
Proof.
  apply (late_batch_is_appended_to_reset_history Examples.loaded "c2" "c0"
           ["c1"; "c2"] Examples.unrelated [Examples.commit "c3"]).
  - cbn. apply not_elem_of_empty.
  - reflexivity.
  - reflexivity.
  - cbn. apply not_elem_of_empty.
  - intros c Hc. apply list_elem_of_In in Hc. cbn in Hc.
    destruct Hc as [<-|[<-|[]]]; done.
Defined.

End GitMoreFacts.

(** ** Further facts about the repository catalog *)

Module CatalogMoreFacts.
Import Catalog CatalogNotions CatalogFacts.
#[local] Open Scope list_scope.

Implicit Types (db : Database) (st : Datastore) (r : Repository)
  (p : GitHubRepository).

(** *** The order of the listing *)

#[local] Instance keyLe_transitive {A} : Transitive (@keyLe A).
Proof. intros x y z. unfold keyLe. lia. Qed.

#[local] Instance keyLe_total {A} : Total (@keyLe A).
Proof. intros x y. unfold keyLe. lia. Qed.

Lemma toArray_keys_NoDup {A} (t : Table A) : NoDup (toArray t).*1.
Proof.
  unfold toArray. rewrite merge_sort_Permutation. apply NoDup_fst_map_to_list.
Qed.

Lemma toArray_sorted {A} (t : Table A) : StronglySorted keyLe (toArray t).
Proof. apply StronglySorted_merge_sort; apply _. Qed.

Lemma sorted_keys_increase {A} (l : list (Z * A)) :
  StronglySorted keyLe l → NoDup l.*1 → StronglySorted Z.lt l.*1.
Proof.
  induction 1 as [|x l Hl IH Hx]; cbn; [constructor|].
  intros [Hnotin Hnd]%NoDup_cons. constructor; [by apply IH|].
  apply Forall_fmap, Forall_forall. intros y Hy.
  rewrite Forall_forall in Hx. specialize (Hx y Hy). unfold keyLe in Hx. cbn.
  destruct (decide (x.1 = y.1)) as [Heq|]; [|lia].
  destruct Hnotin. rewrite Heq. apply list_elem_of_fmap. by exists y.
Qed.

Lemma toArray_add {A} (t : Table A) v :
  keysGenerated t → toArray (add v t).2 = toArray t ++ [(nextKey t, v)].
Proof.
  intros Hgen. pose proof (keysGenerated_fresh t Hgen) as Hfresh.
  assert (toArray (add v t).2 ≡ₚ toArray t ++ [(nextKey t, v)]) as Hperm.
  { unfold toArray. cbn. rewrite !merge_sort_Permutation.
    rewrite map_to_list_insert by done. by rewrite <- Permutation_cons_append. }
  apply (StronglySorted_unique_strong keyLe); [|apply toArray_sorted| |done].
  - intros [k1 v1] [k2 v2] H1 H2 Hle Hge. unfold keyLe in *. cbn in *.
    assert (k1 = k2) as -> by lia. f_equal.
    rewrite <- Hperm in H2. apply elem_of_toArray in H1, H2. congruence.
  - apply StronglySorted_app_2; [|apply toArray_sorted|repeat constructor].
    intros [k1 v1] x2 H1 ->%list_elem_of_singleton. unfold keyLe. cbn.
    apply elem_of_toArray in H1.
    pose proof (keysGenerated_lookup _ _ _ Hgen H1). lia.
Qed.



(** *** The methods, step by step *)

Lemma addRepository_steps st x :
  (addRepository x st).2
  = match getGitHubRepository x with
    | Some _ =>
        (updateGitHubRepository
           (withID x (nextKey (repositories (database st))))
           (mkDatastore (inserted (getPath x) (database st))
              (transactions st ++ [ReadWrite]))).2
    | None =>
        mkDatastore (inserted (getPath x) (database st))
          (transactions st ++ [ReadWrite])
    end.
Proof.
  unfold addRepository. unfold mbind at 1, Method_bind at 1.
  unfold transaction at 1, repositories_add. cbn.
  destruct (getGitHubRepository x) as [p|]; [|done].
  unfold mbind, Method_bind. by destruct (updateGitHubRepository _ _) as [[e|[]] st'].
Qed.

(** What an upsert does to a consistent database: nothing, or the row of
    one remote repository is written, the local row is linked to it, and
    the owners stay or grow by one. *)
Lemma update_effect st r :
  consistent (database st) →
  database (updateGitHubRepository r st).2 = database st
  ∨ ∃ i p lr g oid db',
      getID r = Some i ∧ getGitHubRepository r = Some p
      ∧ rows (repositories (database st)) !! i = Some lr
      ∧ updateGitHubRepository r st
        = (inr tt, mkDatastore db' (transactions st ++ [ReadWrite]))
      ∧ consistent db'
      ∧ repositories db' = update i (relink g) (repositories (database st))
      ∧ rows (gitHubRepositories db')
        = <[g := info p oid]> (rows (gitHubRepositories (database st)))
      ∧ ownersGrow (owners (database st)) (owners db')
      ∧ is_Some (rows (owners db') !! oid)
      ∧ (gitHubRepositoryID lr = Some g
         ∧ ownerOf (database st) g = Some oid
         ∧ owners db' = owners (database st)
         ∨ gitHubRepositoryID lr = None
           ∧ g = nextKey (gitHubRepositories (database st))).
Proof.
  intros Hcons.
  destruct (truthy (getID r)) as [i|] eqn:Hid.
  2: { destruct (update_fatal st r) as [msg ->]; auto. }
  destruct (getGitHubRepository r) as [p|] eqn:Hp.
  2: { destruct (update_fatal st r) as [msg ->]; auto. }
  assert (getID r = Some i ∧ i ≠ 0) as [Hid' Hi0].
  { destruct (getID r) as [k|]; [|done]. cbn in Hid.
    destruct (Z.eqb_spec k 0); by simplify_eq. }
  destruct (rows (repositories (database st)) !! i) as [lr|] eqn:Hlr.
  2: { rewrite (update_missing_row st r i p) by done. by left. }
  right.
  destruct (update_spec st r i p lr)
    as (db' & g & oid & Hupd & Hcons' & Hrepos & Hgh & Hoid & Hlinked & Hunlinked);
    [done..|].
  exists i, p, lr, g, oid, db'. do 7 (split; [done|]).
  pose proof (update_owners_grow st r Hcons) as Hgrow. rewrite Hupd in Hgrow.
  split; [done|]. split; [done|].
  destruct (gitHubRepositoryID lr) as [g0|].
  - left. by destruct (Hlinked g0 eq_refl) as (-> & ? & ?).
  - right. by destruct (Hunlinked eq_refl) as [-> _].
Qed.

(** A property of the database that the insert and the upsert keep holds
    in every datastore the store can be in. *)
Lemma reachable_invariant (I : Database → Prop) :
  I emptyDatabase →
  (∀ db path, consistent db → I db → I (inserted path db)) →
  (∀ st r, consistent (database st) → I (database st) →
           I (database (updateGitHubRepository r st).2)) →
  ∀ st, reachable st → I (database st).
Proof.
  intros Hempty Hinsert Hupdate st.
  induction 1 as [log|st Hst IH|st x Hst IH|st r Hst IH].
  - done.
  - by rewrite getRepositories_consistent by by apply reachable_consistent.
  - pose proof (reachable_consistent st Hst) as Hcons.
    rewrite addRepository_steps. destruct (getGitHubRepository x).
    + apply Hupdate; cbn; [by apply consistent_added|by apply Hinsert].
    + cbn. by apply Hinsert.
  - apply Hupdate; [by apply reachable_consistent|done].
Qed.

(** A preorder on databases that the insert and the upsert follow relates
    every datastore the store can be in to every later one. *)
Lemma later_relation (R : Database → Database → Prop) :
  (∀ db, R db db) → (∀ db1 db2 db3, R db1 db2 → R db2 db3 → R db1 db3) →
  (∀ db path, consistent db → R db (inserted path db)) →
  (∀ st r, consistent (database st) →
           R (database st) (database (updateGitHubRepository r st).2)) →
  ∀ st st', reachable st → later st st' → R (database st) (database st').
Proof.
  intros Hrefl Htrans Hinsert Hupdate st st' Hst Hlater.
  induction Hlater as [st|st st1 st2 Hcall _ IH]; [done|].
  pose proof (reachable_consistent st Hst) as Hcons.
  assert (reachable st1 ∧ R (database st) (database st1)) as [Hst1 HR].
  { destruct Hcall as [|x|r].
    - split; [by constructor|]. by rewrite getRepositories_consistent.
    - split; [by constructor|]. rewrite addRepository_steps.
      destruct (getGitHubRepository x); [|by apply Hinsert].
      eapply Htrans; [by apply (Hinsert _ (getPath x))|].
      apply (Hupdate (mkDatastore _ _)). by apply consistent_added.
    - split; [by constructor|]. by apply Hupdate. }
  eapply Htrans; [done|]. by apply IH.
Qed.

Lemma linkOf_consistent db i g :
  consistent db → linkOf db i = Some g →
  is_Some (rows (gitHubRepositories db) !! g).
Proof.
  intros Hcons Hlink. unfold linkOf in Hlink.
  destruct (rows (repositories db) !! i) as [lr|] eqn:Hlr; [|done]. cbn in Hlink.
  by destruct (consistent_link _ _ _ _ Hcons Hlr Hlink) as (e & -> & _).
Qed.

Lemma reachable_linksInjective st : reachable st → linksInjective (database st).
Proof.
  apply (reachable_invariant linksInjective).
  - intros i j g Hi. unfold linkOf in Hi. cbn in Hi. by rewrite lookup_empty in Hi.
  - intros db path (Hrepos & _) Hinj i j g. unfold linkOf, inserted. cbn.
    rewrite !lookup_insert. destruct (decide _), (decide _); try done.
    apply Hinj.
  - intros st' r Hcons Hinj.
    destruct (update_effect st' r Hcons)
      as [->|(i & p & lr & g & oid & db' & _ & _ & Hlr & -> & _ & Hrepos & _ & _ & _ & Hcase)];
      [done|].
    cbn. intros a b h. unfold linkOf. rewrite Hrepos. cbn.
    assert (∀ j, j ≠ i → linkOf (database st') j = Some g → False) as Hother.
    { intros j Hne Hj. destruct Hcase as [(Hg & _)|(_ & ->)].
      - apply Hne, (Hinj j i g Hj). unfold linkOf. by rewrite Hlr.
      - destruct (linkOf_consistent _ _ _ Hcons Hj) as [e He].
        destruct Hcons as (_ & Hkeys & _).
        pose proof (keysGenerated_lookup _ _ _ Hkeys He). lia. }
    destruct (decide (a = i)) as [->|Ha], (decide (b = i)) as [->|Hb]; [done|..].
    + rewrite lookup_alter_eq, Hlr, lookup_alter_ne by done. cbn.
      intros [= <-] Hb'. by destruct (Hother b).
    + rewrite lookup_alter_ne, lookup_alter_eq, Hlr by done. cbn.
      intros Ha' [= <-]. by destruct (Hother a).
    + rewrite !lookup_alter_ne by done. apply Hinj.
Qed.



(** *** What an upsert leaves alone *)

Lemma ownersGrow_lookup (t t' : Table DatabaseOwner) k o :
  keysGenerated t → ownersGrow t t' → rows t !! k = Some o → rows t' !! k = Some o.
Proof.
  intros Hgen [->|(l & e & _ & ->)] Hk; [done|]. cbn.
  rewrite lookup_insert_ne; [done|]. intros <-.
  by rewrite (keysGenerated_fresh t Hgen) in Hk.
Qed.

(** Inflating reads the remote repository and its owner only. *)
Lemma inflated_agree db db' k lr :
  consistent db → rows (repositories db) !! k = Some lr →
  (∀ g e, gitHubRepositoryID lr = Some g →
          rows (gitHubRepositories db) !! g = Some e →
          rows (gitHubRepositories db') !! g = Some e) →
  (∀ j o, rows (owners db) !! j = Some o → rows (owners db') !! j = Some o) →
  inflated db' (k, lr) = inflated db (k, lr).
Proof.
  intros Hcons Hlr Hgh Howners. unfold inflated. f_equal. cbn.
  destruct (truthy (gitHubRepositoryID lr)) as [g|] eqn:Hg; [|done]. cbn.
  assert (gitHubRepositoryID lr = Some g) as Hg'.
  { destruct (gitHubRepositoryID lr) as [g'|]; [|done]. cbn in Hg.
    by destruct (g' =? 0); simplify_eq. }
  destruct (consistent_link _ _ _ _ Hcons Hlr Hg') as (e & He & [o Ho] & _).
  rewrite He, (Hgh g e Hg' He). cbn. by rewrite Ho, (Howners _ _ Ho).
Qed.

Lemma update_frame st r j lr :
  consistent (database st) → linksInjective (database st) →
  rows (repositories (database st)) !! j = Some lr →
  getID r ≠ Some j →
  rows (repositories (database (updateGitHubRepository r st).2)) !! j = Some lr
  ∧ inflated (database (updateGitHubRepository r st).2) (j, lr)
    = inflated (database st) (j, lr).
Proof.
  intros Hcons Hinj Hlr Hne.
  destruct (update_effect st r Hcons)
    as [->|(i & p & lri & g & oid & db' & Hid & _ & Hlri & -> & _ & Hrepos & Hgh
            & Hgrow & _ & Hcase)]; [done|].
  assert (i ≠ j) as Hij by congruence. cbn. split.
  { rewrite Hrepos. cbn. by rewrite lookup_alter_ne. }
  apply inflated_agree; [done..| |].
  - intros g' e Hg' He. rewrite Hgh, lookup_insert_ne; [done|]. intros <-.
    destruct Hcase as [(Hg & _)|(_ & ->)].
    + apply Hij, (Hinj i j g); unfold linkOf; [by rewrite Hlri|by rewrite Hlr].
    + destruct Hcons as (_ & Hkeys & _).
      pose proof (keysGenerated_lookup _ _ _ Hkeys He). lia.
  - intros k o. apply ownersGrow_lookup; [apply Hcons|done].
Qed.

(** X10. On every datastore the store can be in, an upsert, whether it
    succeeds or fails, leaves the listing entries of all the other local
    repositories as they were: an entry listed before whose identifier
    is not the one the upsert was given is listed after, unchanged. *)
Theorem update_keeps_other_entries st r before entry :
  reachable st →
  (getRepositories st).1 = inr before →
  entry ∈ before → getID entry ≠ getID r →
  ∃ after, (getRepositories (updateGitHubRepository r st).2).1 = inr after
           ∧ entry ∈ after.
Proof.
  intros Hst Hbefore Hin Hne.
  pose proof (reachable_consistent st Hst) as Hcons.
  pose proof (reachable_consistent _ (reachable_updateGitHubRepository st r Hst))
    as Hcons'.
  rewrite getRepositories_consistent in Hbefore by done. cbn in Hbefore.
  injection Hbefore as <-.
  apply list_elem_of_fmap in Hin as ([j lr] & -> & Hj%elem_of_toArray).
  destruct (update_frame st r j lr Hcons (reachable_linksInjective st Hst) Hj)
    as [Hj' Hsame]; [by intros Heq; apply Hne|].
  rewrite getRepositories_consistent by done. eexists. split; [done|].
  rewrite <- Hsame. apply list_elem_of_fmap. exists (j, lr).
  split; [done|]. by apply elem_of_toArray.
Qed.

Lemma update_keeps_other_entries_witness :
  let st := (addRepository Examples.desktopClone Examples.emptyStore).2 in
  let r := mkRepository "/work/dotfiles" (Some Examples.dotfiles) (Some 2) in
  let entry := mkRepository "/work/desktop" (Some Examples.desktop) (Some 1) in
  ∃ after, (getRepositories (updateGitHubRepository r st).2).1 = inr after
           ∧ entry ∈ after.
Proof.
  cbn zeta.
  apply (update_keeps_other_entries _ _
           [mkRepository "/work/desktop" (Some Examples.desktop) (Some 1)]).
  - apply reachable_addRepository, reachable_empty.
  - vm_compute. reflexivity.
  - by left.
  - done.
Defined.

(** *** The listing *)

Lemma getID_inflated db (l : list (Z * DatabaseRepository)) :
  getID <$> (inflated db <$> l) = Some <$> l.*1.
Proof. induction l as [|x l IH]; [done|]. cbn. by f_equal. Qed.

(** X11. Listing the catalog writes nothing and never fails on a
    datastore the store can be in: the database is the one before, one
    read-only transaction is logged, and the entries come in strictly
    increasing order of identifier, one for each stored local
    repository and no other. *)
Theorem getRepositories_in_identifier_order st :
  reachable st →
  ∃ entries ids,
    getRepositories st
    = (inr entries, mkDatastore (database st) (transactions st ++ [ReadOnly]))
    ∧ getID <$> entries = Some <$> ids
    ∧ StronglySorted Z.lt ids
    ∧ ∀ k, k ∈ ids ↔ is_Some (rows (repositories (database st)) !! k).
Proof.
  intros Hst. pose proof (reachable_consistent st Hst) as Hcons.
  eexists _, (toArray (repositories (database st))).*1.
  split; [by apply getRepositories_consistent|].
  split; [apply getID_inflated|]. split.
  - apply sorted_keys_increase; [apply toArray_sorted|apply toArray_keys_NoDup].
  - intros k. rewrite list_elem_of_fmap. split.
    + intros ([k' v] & -> & Hin). exists v. by apply elem_of_toArray.
    + intros [v Hv]. exists (k, v). split; [done|]. by apply elem_of_toArray.
Qed.

Lemma getRepositories_in_identifier_order_witness :
  let st := (addRepository Examples.dotfilesClone
               (addRepository Examples.desktopClone Examples.emptyStore).2).2 in
  ∃ entries ids,
    getRepositories st
    = (inr entries, mkDatastore (database st) (transactions st ++ [ReadOnly]))
    ∧ getID <$> entries = Some <$> ids
    ∧ StronglySorted Z.lt ids
    ∧ ∀ k, k ∈ ids ↔ is_Some (rows (repositories (database st)) !! k).
Proof.
  cbn zeta. apply getRepositories_in_identifier_order.
  do 2 apply reachable_addRepository. apply reachable_empty.
Defined.

Lemma reachable_inserted st path :
  reachable st →
  reachable (mkDatastore (inserted path (database st))
               (transactions st ++ [ReadWrite])).
Proof.
  intros Hst.
  pose proof (reachable_addRepository st (mkRepository path None None) Hst) as H.
  by rewrite addRepository_steps in H.
Qed.

Lemma addRepository_table st x :
  reachable st →
  ∃ lr,
    repositories (database (addRepository x st).2)
    = (add lr (repositories (database st))).2
    ∧ path lr = getPath x
    ∧ ∀ k v, rows (repositories (database st)) !! k = Some v →
             inflated (database (addRepository x st).2) (k, v)
             = inflated (database st) (k, v).
Proof.
  intros Hst. pose proof (reachable_consistent st Hst) as Hcons.
  rewrite addRepository_steps.
  set (i := nextKey (repositories (database st))). destruct (getGitHubRepository x) as [p|] eqn:Hp.
  - set (st1 := mkDatastore (inserted (getPath x) (database st))
                  (transactions st ++ [ReadWrite])).
    assert (reachable st1) as Hst1 by by apply reachable_inserted.
    pose proof (reachable_consistent st1 Hst1) as Hcons1.
    assert (rows (repositories (database st1)) !! i
            = Some (mkDatabaseRepository (getPath x) None)) as Hi.
    { cbn. apply lookup_insert_eq. }
    destruct (update_spec st1 (withID x i) i p _ Hcons1 eq_refl Hp Hi)
      as (db' & g & oid & Heq & _ & Hrepos & _).
    exists (relink g (mkDatabaseRepository (getPath x) None)).
    split; [|split; [done|]].
    + rewrite Heq. cbn. rewrite Hrepos. cbn. unfold update, add. cbn.
      by rewrite alter_insert_eq.
    + intros k v Hk.
      assert (k ≠ i) as Hki.
      { intros ->. destruct Hcons as [Hgen _].
        unfold i in Hk. by rewrite (keysGenerated_fresh _ Hgen) in Hk. }
      destruct (update_frame st1 (withID x i) k v Hcons1
                  (reachable_linksInjective st1 Hst1)) as [_ ->].
      * cbn. by rewrite lookup_insert_ne.
      * cbn. congruence.
      * done.
  - exists (mkDatabaseRepository (getPath x) None). by repeat split.
Qed.

(** X12. Adding a local repository appends one entry to the listing:
    the entries listed before come first, unchanged and in the same
    order, and the new entry, which has the path given and the returned
    identifier, comes last.  The returned identifier is larger than the
    identifier of every entry listed before, whatever identifier the
    repository passed in carried. *)
Theorem addRepository_appends_entry st x before :
  reachable st →
  (getRepositories st).1 = inr before →
  ∃ i entry,
    (addRepository x st).1 = inr (withID x i)
    ∧ (getRepositories (addRepository x st).2).1 = inr (before ++ [entry])
    ∧ getID entry = Some i
    ∧ getPath entry = getPath x
    ∧ ∀ e k, e ∈ before → getID e = Some k → k < i.
Proof.
  intros Hst Hbefore. pose proof (reachable_consistent st Hst) as Hcons.
  pose proof (reachable_consistent _ (reachable_addRepository st x Hst)) as Hcons'.
  rewrite getRepositories_consistent in Hbefore by done. cbn in Hbefore.
  injection Hbefore as <-.
  destruct (addRepository_table st x Hst) as (lr & Hrepos & Hpath & Hsame).
  destruct (addRepository_spec st x Hcons) as (st' & _ & Hadd & _).
  exists (nextKey (repositories (database st))),
    (inflated (database (addRepository x st).2)
       (nextKey (repositories (database st)), lr)).
  split; [by rewrite Hadd|]. split; [|split; [done|split; [done|]]].
  - rewrite getRepositories_consistent by done. cbn. f_equal.
    rewrite Hrepos, toArray_add by apply Hcons. rewrite fmap_app. f_equal.
    apply Forall_fmap_ext_1, Forall_forall. intros [k v] Hk%elem_of_toArray.
    by apply Hsame.
  - intros e k ([k' v] & -> & Hk%elem_of_toArray)%list_elem_of_fmap [= <-].
    destruct Hcons as [Hgen _].
    pose proof (keysGenerated_lookup _ _ _ Hgen Hk). cbn. lia.
Qed.

Lemma addRepository_appends_entry_witness :
  let st := (addRepository Examples.desktopClone Examples.emptyStore).2 in
  let before := [mkRepository "/work/desktop" (Some Examples.desktop) (Some 1)] in
  ∃ i entry,
    (addRepository Examples.dotfilesClone st).1
    = inr (withID Examples.dotfilesClone i)
    ∧ (getRepositories (addRepository Examples.dotfilesClone st).2).1
      = inr (before ++ [entry])
    ∧ getID entry = Some i
    ∧ getPath entry = getPath Examples.dotfilesClone
    ∧ ∀ e k, e ∈ before → getID e = Some k → k < i.
Proof.
  cbn zeta. apply addRepository_appends_entry.
  - apply reachable_addRepository, reachable_empty.
  - vm_compute. reflexivity.
Defined.

Lemma keyLe_fmap_sorted {A} (h : Z * A → Z * A) (l : list (Z * A)) :
  (∀ x, (h x).1 = x.1) → StronglySorted keyLe l → StronglySorted keyLe (h <$> l).
Proof.
  intros Hh. induction 1 as [|x l _ IH Hall]; [constructor|].
  cbn. constructor; [done|]. apply Forall_fmap. eapply Forall_impl; [done|].
  intros y. unfold keyLe. cbn. by rewrite !Hh.
Qed.

(** The rows in the order of the primary key after one row is altered. *)
Lemma toArray_update {A} (t : Table A) i f :
  toArray (update i f t)
  = (λ kv, if decide (kv.1 = i) then (kv.1, f kv.2) else kv) <$> toArray t.
Proof.
  set (h := λ kv : Z * A, if decide (kv.1 = i) then (kv.1, f kv.2) else kv).
  assert (∀ x, (h x).1 = x.1) as Hh.
  { intros [k v]. unfold h. cbn. by destruct (decide (k = i)). }
  assert (NoDup (h <$> toArray t).*1) as Hnodup.
  { rewrite <- list_fmap_compose.
    rewrite (list_fmap_ext (fst ∘ h) fst (toArray t)); [apply toArray_keys_NoDup|].
    intros _ x _. apply Hh. }
  assert (toArray (update i f t) ≡ₚ h <$> toArray t) as Hperm.
  { apply NoDup_Permutation.
    - eapply NoDup_fmap_1, toArray_keys_NoDup.
    - eapply NoDup_fmap_1, Hnodup.
    - intros [k v]. rewrite elem_of_toArray, list_elem_of_fmap. cbn.
      rewrite lookup_alter_Some. split.
      + intros [(-> & v0 & Hk & ->)|(Hne & Hk)].
        * exists (k, v0). split; [|by apply elem_of_toArray].
          unfold h. cbn. by rewrite decide_True.
        * exists (k, v). split; [|by apply elem_of_toArray].
          unfold h. cbn. by rewrite decide_False.
      + intros ([k0 v0] & Heq & Hin%elem_of_toArray). unfold h in Heq. cbn in Heq.
        destruct (decide (k0 = i)) as [->|]; simplify_eq.
        * left. split; [done|]. by exists v0.
        * right. by split. }
  apply (StronglySorted_unique_strong keyLe);
    [|apply toArray_sorted|by apply keyLe_fmap_sorted, toArray_sorted|done].
  intros [k1 v1] [k2 v2] H1 H2 Hle Hge. unfold keyLe in *. cbn in *.
  assert (k1 = k2) as -> by lia. f_equal.
  rewrite <- Hperm in H2. apply elem_of_toArray in H1, H2. congruence.
Qed.

(** X13. The listing after a successful upsert is the listing before
    with the one entry of the given identifier replaced, in place.  The
    new entry keeps the stored path, and its GitHub repository has the
    name, the private and fork flags and the URL given.  Its owner is
    the owner listed before when the repository was linked already,
    whatever owner was given; otherwise it matches the login given up
    to case. *)
Theorem update_replaces_one_entry st r i p before old :
  reachable st →
  getID r = Some i → getGitHubRepository r = Some p →
  (getRepositories st).1 = inr before → old ∈ before → getID old = Some i →
  ∃ st' entry q,
    updateGitHubRepository r st = (inr tt, st')
    ∧ (getRepositories st').1
      = inr ((λ e, if decide (getID e = Some i) then entry else e) <$> before)
    ∧ getID entry = Some i
    ∧ getPath entry = getPath old
    ∧ getGitHubRepository entry = Some q
    ∧ getName q = getName p
    ∧ getPrivate q = getPrivate p
    ∧ getFork q = getFork p
    ∧ getHTMLURL q = getHTMLURL p
    ∧ match getGitHubRepository old with
      | Some q0 => getOwner q = getOwner q0
      | None =>
          equalsIgnoreCase (getLogin (getOwner q)) (getLogin (getOwner p)) = true
      end.
Proof.
  intros Hst Hid Hp Hbefore Hold Hi.
  pose proof (reachable_consistent st Hst) as Hcons.
  rewrite getRepositories_consistent in Hbefore by done. cbn in Hbefore.
  injection Hbefore as <-.
  apply list_elem_of_fmap in Hold as ([i' lr] & -> & Hlr%elem_of_toArray).
  cbn in Hi. injection Hi as ->.
  destruct (update_spec st r i p lr Hcons Hid Hp Hlr)
    as (db' & g & oid & Heq & Hcons' & Hrepos & Hgh & [o Ho] & Hlinked & Hunlinked).
  assert (rows (gitHubRepositories db') !! g = Some (info p oid)) as Hg.
  { rewrite Hgh. apply lookup_insert_eq. }
  assert (g ≠ 0) as Hg0.
  { destruct Hcons' as (_ & Hkeys & _).
    pose proof (keysGenerated_lookup _ _ _ Hkeys Hg). lia. }
  exists (mkDatastore db' (transactions st ++ [ReadWrite])),
    (inflated db' (i, relink g lr)),
    (mkGitHubRepository (getName p) (mkOwner (login o) (endpoint o))
       (getPrivate p) (getFork p) (getHTMLURL p)).
  split; [done|]. split; [|split; [done|split; [done|split]]].
  - rewrite getRepositories_consistent by done. cbn. f_equal.
    rewrite Hrepos, toArray_update, <- !list_fmap_compose.
    apply Forall_fmap_ext_1, Forall_forall. intros [k v] Hk%elem_of_toArray. cbn.
    destruct (decide (k = i)) as [->|Hki].
    + rewrite decide_True by done. congruence.
    + rewrite decide_False by congruence.
      destruct (update_frame st r k v Hcons (reachable_linksInjective st Hst) Hk)
        as [_ Hsame]; [congruence|].
      by rewrite Heq in Hsame.
  - unfold inflated. cbn. destruct (Z.eqb_spec g 0) as [|_]; [done|]. cbn.
    rewrite Hg. cbn. by rewrite Ho.
  - do 4 (split; [done|]). cbn.
    destruct (gitHubRepositoryID lr) as [g0|] eqn:Hlink.
    + destruct (Hlinked g0 eq_refl) as (-> & Howner & Hsame).
      unfold ownerOf in Howner.
      destruct (rows (gitHubRepositories (database st)) !! g0) as [e|] eqn:He;
        [|done]. cbn in Howner. injection Howner as Howner.
      rewrite (truthy_Some g0 Hg0). cbn. rewrite He. cbn.
      rewrite Howner, <- Hsame, Ho. done.
    + cbn. destruct (Hunlinked eq_refl) as [_ Howner].
      destruct (firstOwnerIgnoreCase _ _) as [o'|] eqn:Hfound.
      * destruct Howner as [-> Hsame]. rewrite Hsame in Ho.
        destruct (firstOwnerIgnoreCase_Some _ _ _ Hfound) as [Ho' Hmatch].
        rewrite Ho' in Ho. by injection Ho as <-.
      * destruct Howner as [-> Hadded]. rewrite Hadded in Ho. cbn in Ho.
        rewrite lookup_insert_eq in Ho. injection Ho as <-. cbn.
        apply equalsIgnoreCase_refl.
Qed.

Lemma update_replaces_one_entry_witness :
  let st := (addRepository Examples.desktopClone Examples.emptyStore).2 in
  let p := mkGitHubRepository "desktop-plus" (mkOwner "bob" "https://api.github.com")
             true true "https://github.com/bob/desktop-plus" in
  let r := mkRepository "/elsewhere" (Some p) (Some 1) in
  let old := mkRepository "/work/desktop" (Some Examples.desktop) (Some 1) in
  ∃ st' entry q,
    updateGitHubRepository r st = (inr tt, st')
    ∧ (getRepositories st').1
      = inr ((λ e, if decide (getID e = Some 1) then entry else e) <$> [old])
    ∧ getID entry = Some 1
    ∧ getPath entry = getPath old
    ∧ getGitHubRepository entry = Some q
    ∧ getName q = getName p
    ∧ getPrivate q = getPrivate p
    ∧ getFork q = getFork p
    ∧ getHTMLURL q = getHTMLURL p
    ∧ match getGitHubRepository old with
      | Some q0 => getOwner q = getOwner q0
      | None =>
          equalsIgnoreCase (getLogin (getOwner q)) (getLogin (getOwner p)) = true
      end.
Proof.
  cbn zeta. apply update_replaces_one_entry.
  - apply reachable_addRepository, reachable_empty.
  - reflexivity.
  - reflexivity.
  - vm_compute. reflexivity.
  - by left.
  - reflexivity.
Defined.

(** X14. An upsert for an identifier that is not zero and that no listed
    entry carries is rejected with a type error, not with a fatal
    error: the transaction is opened and logged, and it leaves the
    database as it was. *)
Theorem update_unlisted_identifier_is_type_error st r i p before :
  reachable st →
  getID r = Some i → i ≠ 0 → getGitHubRepository r = Some p →
  (getRepositories st).1 = inr before →
  (∀ e, e ∈ before → getID e ≠ Some i) →
  updateGitHubRepository r st
  = (inl TypeError, mkDatastore (database st) (transactions st ++ [ReadWrite])).
Proof.
  intros Hst Hid Hi Hp Hbefore Hunlisted.
  pose proof (reachable_consistent st Hst) as Hcons.
  apply (update_missing_row st r i p Hid Hp Hi).
  destruct (rows (repositories (database st)) !! i) as [lr|] eqn:Hlr; [|done].
  destruct (getRepositories_lists st i lr Hcons Hlr) as (entries & Hlist & Hin).
  rewrite Hbefore in Hlist. injection Hlist as <-.
  by destruct (Hunlisted _ Hin).
Qed.

Lemma update_unlisted_identifier_is_type_error_witness :
  let st := (addRepository Examples.desktopClone Examples.emptyStore).2 in
  let r := mkRepository "/work/dotfiles" (Some Examples.dotfiles) (Some 5) in
  updateGitHubRepository r st
  = (inl TypeError, mkDatastore (database st) (transactions st ++ [ReadWrite])).
Proof.
  cbn zeta.
  apply (update_unlisted_identifier_is_type_error _ _ 5 Examples.dotfiles
           [mkRepository "/work/desktop" (Some Examples.desktop) (Some 1)]).
  - apply reachable_addRepository, reachable_empty.
  - reflexivity.
  - done.
  - reflexivity.
  - vm_compute. reflexivity.
  - intros e ->%list_elem_of_singleton. done.
Defined.

(** *** What no call undoes *)

Lemma persists_refl db : persists db db.
Proof. repeat split; eauto. Qed.

Lemma persists_trans db1 db2 db3 :
  persists db1 db2 → persists db2 db3 → persists db1 db3.
Proof.
  intros (Ho1 & Hr1 & Hg1) (Ho2 & Hr2 & Hg2). repeat split.
  - eauto.
  - intros i lr Hlr. destruct (Hr1 i lr Hlr) as (lr1 & Hlr1 & Hp1 & Hl1).
    destruct (Hr2 i lr1 Hlr1) as (lr2 & Hlr2 & Hp2 & Hl2).
    exists lr2. split; [done|]. split; [congruence|]. eauto.
  - intros g e He. destruct (Hg1 g e He) as (e1 & He1 & Hid1).
    destruct (Hg2 g e1 He1) as (e2 & He2 & Hid2).
    exists e2. split; [done|]. congruence.
Qed.

Lemma persists_inserted db path : consistent db → persists db (inserted path db).
Proof.
  intros [Hgen _]. repeat split; [eauto| |eauto].
  intros i lr Hlr. exists lr. split; [|done]. cbn.
  rewrite lookup_insert_ne; [done|]. intros <-.
  by rewrite (keysGenerated_fresh _ Hgen) in Hlr.
Qed.

Lemma persists_update st r :
  consistent (database st) →
  persists (database st) (database (updateGitHubRepository r st).2).
Proof.
  intros Hcons.
  destruct (update_effect st r Hcons)
    as [->|(i & p & lri & g & oid & db' & _ & _ & Hlri & -> & _ & Hrepos & Hgh
            & Hgrow & _ & Hcase)]; [apply persists_refl|].
  cbn. repeat split.
  - intros k o. apply ownersGrow_lookup; [apply Hcons|done].
  - intros j lr Hlr. rewrite Hrepos. cbn.
    destruct (decide (i = j)) as [<-|Hne].
    + rewrite lookup_alter_eq, Hlr. cbn. eexists. split; [done|].
      split; [done|]. intros g0 Hg0. cbn.
      destruct Hcase as [(Hg & _)|(Hnone & _)]; congruence.
    + rewrite lookup_alter_ne by done. eauto.
  - intros g0 e He. rewrite Hgh.
    destruct (decide (g = g0)) as [<-|Hne].
    + rewrite lookup_insert_eq. eexists. split; [done|]. cbn.
      destruct Hcase as [(_ & Howner & _)|(_ & ->)].
      * unfold ownerOf in Howner. rewrite He in Howner. cbn in Howner. congruence.
      * destruct Hcons as (_ & Hkeys & _).
        by rewrite (keysGenerated_fresh _ Hkeys) in He.
    + rewrite lookup_insert_ne by done. eauto.
Qed.

(** X15. No sequence of calls of the store's methods undoes anything:
    from a datastore the store can be in, after any number of further
    listings, additions and upserts, every owner row is still there
    unchanged, every local repository is still there with its path and,
    once linked, with the same link, and every remote repository is
    still there with the same owner. *)
Theorem calls_never_undo st st' :
  reachable st → later st st' → persists (database st) (database st').
Proof.
  apply (later_relation persists).
  - apply persists_refl.
  - apply persists_trans.
  - intros db path. apply persists_inserted.
  - apply persists_update.
Qed.

Lemma calls_never_undo_witness :
  let st := (addRepository Examples.desktopClone Examples.emptyStore).2 in
  let st1 := (addRepository (Examples.bare "/work/dotfiles") st).2 in
  let st2 :=
    (updateGitHubRepository
       (mkRepository "/work/dotfiles" (Some Examples.dotfiles) (Some 2)) st1).2 in
  persists (database st) (database st2).
Proof.
  cbn zeta. apply calls_never_undo.
  - apply reachable_addRepository, reachable_empty.
  - eapply rtc_l; [apply called_addRepository|].
    eapply rtc_l; [apply called_updateGitHubRepository|]. apply rtc_refl.
Defined.

(** X16. On every datastore the store can be in, the references between
    the tables are sound: a link of a local repository names a remote
    repository that is stored, whose owner is stored too; no other
    local repository has the same link; and no two owner rows have
    logins that are equal up to case. *)
Theorem references_are_sound st :
  reachable st →
  (∀ i g, linkOf (database st) i = Some g →
     g ≠ 0
     ∧ (∃ e o, rows (gitHubRepositories (database st)) !! g = Some e
               ∧ rows (owners (database st)) !! ownerID e = Some o)
     ∧ ∀ j, linkOf (database st) j = Some g → j = i)
  ∧ ∀ k1 k2 o1 o2,
      rows (owners (database st)) !! k1 = Some o1 →
      rows (owners (database st)) !! k2 = Some o2 →
      k1 ≠ k2 → equalsIgnoreCase (login o1) (login o2) = false.
Proof.
  intros Hst. pose proof (reachable_consistent st Hst) as Hcons. split.
  - intros i g Hlink. unfold linkOf in Hlink.
    destruct (rows (repositories (database st)) !! i) as [lr|] eqn:Hlr; [|done].
    cbn in Hlink.
    destruct (consistent_link _ _ _ _ Hcons Hlr Hlink) as (e & He & [o Ho] & Hg).
    split; [done|]. split; [by exists e, o|].
    intros j Hj. apply (reachable_linksInjective st Hst j i g); [done|].
    unfold linkOf. by rewrite Hlr.
  - intros k1 k2 o1 o2 H1 H2 Hne.
    destruct (equalsIgnoreCase (login o1) (login o2)) eqn:Heq; [|done].
    by destruct Hne, (reachable_ownersDistinct st Hst k1 k2 o1 o2).
Qed.

Lemma references_are_sound_witness :
  let st := (addRepository Examples.dotfilesClone
               (addRepository Examples.desktopClone Examples.emptyStore).2).2 in
  (∀ i g, linkOf (database st) i = Some g →
     g ≠ 0
     ∧ (∃ e o, rows (gitHubRepositories (database st)) !! g = Some e
               ∧ rows (owners (database st)) !! ownerID e = Some o)
     ∧ ∀ j, linkOf (database st) j = Some g → j = i)
  ∧ ∀ k1 k2 o1 o2,
      rows (owners (database st)) !! k1 = Some o1 →
      rows (owners (database st)) !! k2 = Some o2 →
      k1 ≠ k2 → equalsIgnoreCase (login o1) (login o2) = false.
Proof.
  cbn zeta. apply references_are_sound.
  do 2 apply reachable_addRepository. apply reachable_empty.
Defined.

End CatalogMoreFacts.
